(** * The retransmission queue of MaidSafe-CRUX

    A shallow embedding of [maidsafe::crux::detail::transmit_queue]
    (include/maidsafe/crux/detail/transmit_queue.hpp) and the properties of
    its [push], [apply_ack], [shutdown] and step-continuation paths.

    The class is callback driven.  The callbacks the caller supplies (the
    [step] and the [handler] of an entry) are opaque to the queue, so they are
    modelled as names, and every call the queue makes is written to an event
    log in program order.  The queue's methods run in a small state-and-log
    monad; the environment (the protocol layer, the io_service and the
    timer) drives the queue through the calls of type [call].

    Two conventions of the surrounding code are built in.  A step completes
    asynchronously: it keeps the continuation it is given and calls it later,
    once, from the event loop; and a callback does not call back into the
    queue before it returns.  For a handler the latter loses nothing: the
    call of a handler is the last statement of every path that makes one, so
    what the handler calls is what is called right after.  Besides, the
    [std::map] that [shutdown] moves from is left empty. *)

From Stdlib Require Import List NArith Bool Arith Sorted Lia.
Import ListNotations.

Local Open Scope N_scope.

(** ** Data model *)

(** Modelled from the spec: [sequence_number.hpp] is not part of the sources;
    the key type is "a totally ordered, copyable identifier type with no
    queue-visible semantics beyond ordering and equality".  The naturals with
    their order stand for it. *)
Definition Index : Type := N.

(** Modelled from the spec: [timer.hpp] is not part of the sources;
    [detail::timer::duration_type] is a span of time, kept as a count of
    abstract ticks. *)
Definition duration_type : Type := N.

(** [boost::system::error_code].  The default constructed code is success,
    with value 0; the two asio codes the queue itself produces are named;
    every other code comes from the transport and carries its value, which
    is not 0. *)
Inductive error_code : Type :=
| success
| operation_aborted
| already_started
| transport_error (code : positive).

(** [if (error)]: an error code converts to true when its value is not 0,
    which is the case of every code but success. *)
Definition is_error (ec : error_code) : bool :=
  match ec with
  | success => false
  | _ => true
  end.

(** The two [std::function] callbacks are caller code; the queue only stores
    and calls them, so a callback is represented by its name. *)
Definition iteration_handler : Type := N.
Definition iteration_step : Type := N.

Record entry_type : Type := mk_entry {
  buffer_size : N;
  period : duration_type;
  step : iteration_step;
  handler : iteration_handler
}.

(** [std::shared_ptr<entry_type>].  The fields of an entry are assigned once,
    in [push], and never written again, so a pointer is the address returned
    by [make_shared] together with the object it points to. *)
Record entry_ptr : Type := mk_ptr {
  addr : nat;
  pointee : entry_type
}.

(** [std::map<index_type, std::shared_ptr<entry_type>>]: the bindings in
    ascending key order, [begin()] being the first one. *)
Definition entries_type : Type := list (Index * entry_ptr).

Fixpoint map_find (index : Index) (m : entries_type) : option entry_ptr :=
  match m with
  | [] => None
  | (j, e) :: m' => if index =? j then Some e else map_find index m'
  end.

(** [insert] keeps an existing binding and reports whether it inserted. *)
Fixpoint map_insert (index : Index) (e : entry_ptr) (m : entries_type)
  : entries_type * bool :=
  match m with
  | [] => ([(index, e)], true)
  | (j, e') :: m' =>
      if index <? j then ((index, e) :: m, true)
      else if index =? j then (m, false)
      else let (m'', inserted) := map_insert index e m' in
           ((j, e') :: m'', inserted)
  end.

Fixpoint map_erase (index : Index) (m : entries_type) : entries_type :=
  match m with
  | [] => []
  | (j, e) :: m' => if index =? j then m' else (j, e) :: map_erase index m'
  end.

(** [entry_i == entries.begin()] for the iterator [find] returned. *)
Definition is_begin (index : Index) (m : entries_type) : bool :=
  match m with
  | [] => false
  | (j, _) :: _ => index =? j
  end.

Definition map_empty (m : entries_type) : bool :=
  match m with
  | [] => true
  | _ :: _ => false
  end.

(** Modelled from the spec: [timer.hpp] is not part of the sources.  The
    timer has "start(), stop(), set_period(duration), and a single registered
    tick callback invoked periodically while started; starting an
    already-started timer restarts its cadence from the new period". *)
Record timer_type : Type := mk_timer {
  running : bool;
  timer_period : duration_type
}.

(** A closure handed to [ios.post]: both lambdas the queue posts call one
    handler with one error code and one size. *)
Record closure : Type := mk_closure {
  cl_handler : iteration_handler;
  cl_error : error_code;
  cl_bytes : N
}.

(** The lambda [start_step] passes to [step].  It captures the entry pointer
    and the weak pointer [shutdown_guard]; [k_guard] tells whether the weak
    pointer was taken from a non-null [shutdown_indicator]. *)
Record continuation : Type := mk_continuation {
  k_entry : entry_ptr;
  k_guard : bool
}.

(** The queue (fields [entries], [timer], [shutdown_indicator]) with the part
    of its environment it talks to: the closures posted to the io_service
    and not yet run, the continuations handed to steps and not yet called,
    and the next address [make_shared] returns. *)
Record world : Type := mk_world {
  ios : list closure;
  entries : entries_type;
  timer : timer_type;
  shutdown_indicator : bool;
  inflight : list continuation;
  heap_next : nat
}.

(** Every statement with an effect, in program order. *)
Inductive event : Type :=
| ev_insert (index : Index) (e : entry_ptr)
| ev_erase (index : Index)
| ev_detach
| ev_token_reset
| ev_timer_stop
| ev_timer_set_period (d : duration_type)
| ev_timer_start
| ev_post (c : closure)
| ev_step (st : iteration_step) (k : continuation)
| ev_continuation (k : continuation) (ec : error_code) (n : N)
| ev_handler (h : iteration_handler) (ec : error_code) (n : N).

(** ** The state-and-log monad *)

Definition M (A : Type) : Type := world -> A * world * list event.

Definition ret {A : Type} (a : A) : M A := fun w => (a, w, []).

Definition bind {A B : Type} (m : M A) (f : A -> M B) : M B :=
  fun w =>
    let '(a, w1, t1) := m w in
    let '(b, w2, t2) := f a w1 in
    (b, w2, t1 ++ t2).

Declare Scope queue_scope.
Delimit Scope queue_scope with queue.
Notation "x <- m ;; k" := (bind m (fun x => k))
  (at level 61, m at next level, right associativity) : queue_scope.
Notation "m ;; k" := (bind m (fun _ => k))
  (at level 61, right associativity) : queue_scope.
Local Open Scope queue_scope.

Definition gets {A : Type} (f : world -> A) : M A := fun w => (f w, w, []).
Definition modify (f : world -> world) : M unit := fun w => (tt, f w, []).
Definition emit (e : event) : M unit := fun w => (tt, w, [e]).

Definition state_of {A : Type} (r : A * world * list event) : world :=
  snd (fst r).
Definition log_of {A : Type} (r : A * world * list event) : list event :=
  snd r.

Definition set_ios (v : list closure) (w : world) : world :=
  mk_world v (entries w) (timer w) (shutdown_indicator w) (inflight w)
           (heap_next w).
Definition set_entries (v : entries_type) (w : world) : world :=
  mk_world (ios w) v (timer w) (shutdown_indicator w) (inflight w)
           (heap_next w).
Definition set_timer (v : timer_type) (w : world) : world :=
  mk_world (ios w) (entries w) v (shutdown_indicator w) (inflight w)
           (heap_next w).
Definition set_shutdown_indicator (v : bool) (w : world) : world :=
  mk_world (ios w) (entries w) (timer w) v (inflight w) (heap_next w).
Definition set_inflight (v : list continuation) (w : world) : world :=
  mk_world (ios w) (entries w) (timer w) (shutdown_indicator w) v
           (heap_next w).
Definition set_heap_next (v : nat) (w : world) : world :=
  mk_world (ios w) (entries w) (timer w) (shutdown_indicator w) (inflight w)
           v.

(** ** The collaborators *)

(** Modelled from the spec: the three operations of the timer, which is not
    part of the sources.  [stop()] stops it, [set_period(d)] sets its
    period, [start()] starts it (again). *)
Definition timer_stop : M unit :=
  emit ev_timer_stop;;
  modify (fun w => set_timer (mk_timer false (timer_period (timer w))) w).

Definition timer_set_period (d : duration_type) : M unit :=
  emit (ev_timer_set_period d);;
  modify (fun w => set_timer (mk_timer (running (timer w)) d) w).

Definition timer_start : M unit :=
  emit ev_timer_start;;
  modify (fun w => set_timer (mk_timer true (timer_period (timer w))) w).

(** [ios.post(f)]: [f] is queued, not run. *)
Definition post (c : closure) : M unit :=
  emit (ev_post c);;
  modify (fun w => set_ios (ios w ++ [c]) w).

(** [std::make_shared<entry_type>()]: a fresh address. *)
Definition make_shared : M nat :=
  a <- gets heap_next;;
  modify (set_heap_next (S a));;
  ret a.

(** ** The queue *)

Section Queue.

(** [constant::initial_roundtrip_time]; [constants.hpp] is not part of the
    sources, so the constant is a parameter of the model. *)
Variable initial_roundtrip_time : duration_type.

(** The constructor: no entries, a stopped timer (whose period nothing reads
    before [set_period] is called), a live shutdown token. *)
Definition transmit_queue : world :=
  mk_world [] [] (mk_timer false 0) true [] 0%nat.

(** [start_step]: the entry's step is called with the continuation; what the
    step does with it is the environment's business, the continuation is
    in flight until the environment calls it. *)
Definition start_step (entry : entry_ptr) : M unit :=
  shutdown_guard <- gets shutdown_indicator;;
  let k := mk_continuation entry shutdown_guard in
  emit (ev_step (step (pointee entry)) k);;
  modify (fun w => set_inflight (inflight w ++ [k]) w).

(** The body of the lambda of [start_step].  [shutdown_guard.lock()] gives a
    non-null pointer when the weak pointer was taken from a non-null
    [shutdown_indicator] and the token has not been reset since. *)
Definition continuation_body (k : continuation) (error : error_code)
  (bytes_transferred : N) : M unit :=
  emit (ev_continuation k error bytes_transferred);;
  alive <- gets shutdown_indicator;;
  if negb (k_guard k && alive) || is_error error then
    emit (ev_handler (handler (pointee (k_entry k))) error bytes_transferred)
  else
    timer_set_period (period (pointee (k_entry k)));;
    timer_start.

Definition on_timer_tick : M unit :=
  es <- gets entries;;
  match es with
  | [] => ret tt
  | (_, entry) :: _ => start_step entry
  end.

Definition empty (w : world) : bool := map_empty (entries w).

Definition size (w : world) : nat := length (entries w).

Definition apply_ack (index : Index) : M unit :=
  es <- gets entries;;
  match map_find index es with
  | None => ret tt
  | Some entry =>
      let is_active := is_begin index es in
      emit (ev_erase index);;
      modify (set_entries (map_erase index es));;
      (if is_active then
         timer_stop;;
         es' <- gets entries;;
         match es' with
         | [] => ret tt
         | (_, head) :: _ => start_step head
         end
       else ret tt);;
      emit (ev_handler (handler (pointee entry)) success
                       (buffer_size (pointee entry)))
  end.

Fixpoint post_cancellations (moved_entries : entries_type) : M unit :=
  match moved_entries with
  | [] => ret tt
  | (_, entry) :: rest =>
      post (mk_closure (handler (pointee entry)) operation_aborted
                       (buffer_size (pointee entry)));;
      post_cancellations rest
  end.

Definition shutdown : M unit :=
  emit ev_token_reset;;
  modify (set_shutdown_indicator false);;
  timer_stop;;
  moved_entries <- gets entries;;
  emit ev_detach;;
  modify (set_entries []);;
  post_cancellations moved_entries.

(** [push].  The entry is allocated before the insertion is tried, as in the
    source; its four fields are assigned right after a successful insertion
    and nothing runs in between, so the entry is built with them. *)
Definition push (index : Index) (size : N) (st : iteration_step)
  (h : iteration_handler) : M unit :=
  was_empty <- gets empty;;
  a <- make_shared;;
  let entry := mk_ptr a (mk_entry size initial_roundtrip_time st h) in
  es <- gets entries;;
  let (es', inserted) := map_insert index entry es in
  if negb inserted then
    post (mk_closure h already_started 0)
  else
    emit (ev_insert index entry);;
    modify (set_entries es');;
    if was_empty then start_step entry else ret tt.

(** ** The environment *)

(** What can happen to the queue: a call of one of its three methods, a step
    calling the continuation it was given, a tick of the timer, or the
    io_service running the closure posted first. *)
Inductive call : Type :=
| call_push (index : Index) (size : N) (st : iteration_step)
            (h : iteration_handler)
| call_apply_ack (index : Index)
| call_shutdown
| io_complete (n : nat) (ec : error_code) (bytes : N)
| io_tick
| io_poll.

Fixpoint remove_nth {A : Type} (n : nat) (l : list A) : list A :=
  match n, l with
  | _, [] => []
  | O, _ :: l' => l'
  | S n', x :: l' => x :: remove_nth n' l'
  end.

(** The [n]-th continuation in flight is called, once. *)
Definition complete (n : nat) (ec : error_code) (bytes : N) : M unit :=
  ks <- gets inflight;;
  match nth_error ks n with
  | None => ret tt
  | Some k =>
      modify (set_inflight (remove_nth n ks));;
      continuation_body k ec bytes
  end.

(** Modelled from the spec: the tick callback is "invoked periodically while
    started", so a tick happens only while the timer runs and leaves it
    running. *)
Definition tick : M unit :=
  t <- gets timer;;
  if running t then on_timer_tick else ret tt.

(** The io_service runs the closure that was posted first. *)
Definition poll : M unit :=
  cs <- gets ios;;
  match cs with
  | [] => ret tt
  | c :: rest =>
      modify (set_ios rest);;
      emit (ev_handler (cl_handler c) (cl_error c) (cl_bytes c))
  end.

Definition exec (c : call) : M unit :=
  match c with
  | call_push index size st h => push index size st h
  | call_apply_ack index => apply_ack index
  | call_shutdown => shutdown
  | io_complete n ec bytes => complete n ec bytes
  | io_tick => tick
  | io_poll => poll
  end.

Fixpoint run (cs : list call) : M unit :=
  match cs with
  | [] => ret tt
  | c :: cs' => exec c;; run cs'
  end.

End Queue.

(** ** Notions the properties are stated with *)

(** The bindings are in strictly ascending key order. *)
Definition ascending (m : entries_type) : Prop :=
  StronglySorted N.lt (map fst m).

(** The head as the specification names it: the binding with the minimum
    index, found by comparing all keys. *)
Fixpoint min_entry (m : entries_type) : option (Index * entry_ptr) :=
  match m with
  | [] => None
  | (j, e) :: m' =>
      match min_entry m' with
      | None => Some (j, e)
      | Some (j', e') => if j <=? j' then Some (j, e) else Some (j', e')
      end
  end.

Definition is_head (index : Index) (m : entries_type) : bool :=
  match min_entry m with
  | Some (j, _) => index =? j
  | None => false
  end.

(** The closure [shutdown] posts for an entry. *)
Definition cancellation (e : entry_ptr) : closure :=
  mk_closure (handler (pointee e)) operation_aborted (buffer_size (pointee e)).

Definition is_handler_call (h : iteration_handler) (ev : event) : bool :=
  match ev with
  | ev_handler h' _ _ => h' =? h
  | _ => false
  end.

(** How often the handler named [h] was called in a log. *)
Definition handler_calls (h : iteration_handler) (log : list event) : nat :=
  length (filter (is_handler_call h) log).

(** How many handlers were called in a log, whichever they are. *)
Definition handler_calls_inline (log : list event) : nat :=
  length (filter (fun ev => match ev with
                            | ev_handler _ _ _ => true
                            | _ => false
                            end) log).

(** Events that complete an entry: a handler called, or a call of it posted. *)
Definition is_completion (ev : event) : bool :=
  match ev with
  | ev_handler _ _ _ | ev_post _ => true
  | _ => false
  end.

Definition is_step_call (ev : event) : bool :=
  match ev with
  | ev_step _ _ => true
  | _ => false
  end.

Definition is_push (c : call) : bool :=
  match c with
  | call_push _ _ _ _ => true
  | _ => false
  end.

(** The retry attempts of the entry at address [a]: [start_step] begins one,
    the continuation being called completes one. *)
Inductive attempt : Type :=
| attempt_started
| attempt_done (ec : error_code).

Definition note_attempt (a : nat) (acc : option attempt) (ev : event)
  : option attempt :=
  match ev with
  | ev_step _ k =>
      if Nat.eqb (addr (k_entry k)) a then Some attempt_started else acc
  | ev_continuation k ec _ =>
      if Nat.eqb (addr (k_entry k)) a then Some (attempt_done ec) else acc
  | _ => acc
  end.

(** The latest thing the log says about the attempts of the entry at [a]. *)
Definition last_attempt (a : nat) (log : list event) : option attempt :=
  fold_left (note_attempt a) log None.

(** An attempt that completed without error. *)
Definition attempt_ok (o : option attempt) : bool :=
  match o with
  | Some (attempt_done success) => true
  | _ => false
  end.

(** The head entry's most recent retry attempt completed without error. *)
Definition head_attempt_ok (w : world) (log : list event) : bool :=
  match min_entry (entries w) with
  | Some (_, e) =>
      match last_attempt (addr e) log with
      | Some (attempt_done success) => true
      | _ => false
      end
  | None => false
  end.

(** Addresses an event mentions are below [n]. *)
Definition event_below (n : nat) (ev : event) : Prop :=
  match ev with
  | ev_step _ k | ev_continuation k _ _ => (addr (k_entry k) < n)%nat
  | ev_insert _ e => (addr e < n)%nat
  | _ => True
  end.

(** What holds of the queue and its log at every moment: the table is in
    key order, a running timer means a live token, a live token means every
    continuation in flight holds a weak pointer to it, and every address in
    use was handed out by [make_shared]. *)
Record consistent (w : world) (log : list event) : Prop := mk_consistent {
  cons_ascending : ascending (entries w);
  cons_timer : running (timer w) = true -> shutdown_indicator w = true;
  cons_guard : shutdown_indicator w = true ->
               Forall (fun k => k_guard k = true) (inflight w);
  cons_entries : Forall (fun ie => (addr (snd ie) < heap_next w)%nat)
                        (entries w);
  cons_inflight : Forall (fun k => (addr (k_entry k) < heap_next w)%nat)
                         (inflight w);
  cons_log : Forall (event_below (heap_next w)) log;
  cons_retry : shutdown_indicator w = true ->
               head_attempt_ok w log = true -> running (timer w) = true
}.

(** The timer property as the specification words it, for one moment of a
    run: the timer runs exactly when the table is not empty, the head's most
    recent attempt completed without error, and the token is live. *)
Definition timer_runs_iff_head_retried (w : world) (log : list event)
  : Prop :=
  running (timer w) = true <->
  (entries w <> [] /\ head_attempt_ok w log = true /\
   shutdown_indicator w = true).

(** An entry acknowledged while its step is still in flight: the
    continuation then completes without error and starts the timer over an
    empty table. *)
Definition late_completion : list call :=
  [call_push 1 100 11 21; call_apply_ack 1; io_complete 0 success 100].

(** The head completes an attempt, then a smaller index is pushed: the new
    head has never been attempted. *)
Definition smaller_index_pushed : list call :=
  [call_push 2 200 12 22; io_complete 0 success 200; call_push 1 100 11 21].



(** A push after the shutdown. *)
Definition push_after_shutdown : list call :=
  [call_push 1 100 11 21; call_shutdown; io_poll; call_push 2 200 12 22].

(** A step fails and the entry is acknowledged afterwards. *)
Definition error_then_ack : list call :=
  [call_push 1 100 11 21; io_complete 0 (transport_error 5) 0;
   call_apply_ack 1].

(** The queue is shut down while a step is in flight, the io_service runs
    the posted cancellation, and the step completes afterwards. *)
Definition shutdown_then_completion : list call :=
  [call_push 1 100 11 21; call_shutdown; io_poll; io_complete 0 success 100].

(** A table with two waiting entries, used to exercise the statements. *)
Definition two_entries : world :=
  mk_world [] [(1, mk_ptr 0 (mk_entry 100 1000 11 21));
               (2, mk_ptr 1 (mk_entry 200 1000 12 22))]
           (mk_timer true 1000) true
           [mk_continuation (mk_ptr 0 (mk_entry 100 1000 11 21)) true] 2%nat.

(** ** Notions for the further properties *)

(** Entries waiting in the table whose handler is [h]. *)
Definition waiting (h : iteration_handler) (w : world) : nat :=
  length (filter (fun ie => handler (pointee (snd ie)) =? h) (entries w)).

(** Closures posted to the io_service, and not yet run, that call [h]. *)
Definition posted (h : iteration_handler) (w : world) : nat :=
  length (filter (fun c => cl_handler c =? h) (ios w)).

Definition is_push_of (h : iteration_handler) (c : call) : bool :=
  match c with
  | call_push _ _ _ h' => h' =? h
  | _ => false
  end.

(** How many of the calls are a [push] with the handler [h]. *)
Definition pushes (h : iteration_handler) (cs : list call) : nat :=
  length (filter (is_push_of h) cs).

(** The continuation [k], called with [ec] in [w], takes the branch of the
    lambda that calls the handler. *)
Definition calls_handler (k : continuation) (ec : error_code) (w : world)
  : bool :=
  negb (k_guard k && shutdown_indicator w) || is_error ec.

(** How many calls of [h] the call [c] makes from a continuation. *)
Definition direct (h : iteration_handler) (c : call) (w : world) : nat :=
  match c with
  | io_complete n ec _ =>
      match nth_error (inflight w) n with
      | Some k =>
          if calls_handler k ec w && (handler (pointee (k_entry k)) =? h)
          then 1%nat else 0%nat
      | None => 0%nat
      end
  | _ => 0%nat
  end.

(** The same along a run. *)
Fixpoint direct_run (rtt : duration_type) (h : iteration_handler)
  (cs : list call) (w : world) : nat :=
  match cs with
  | [] => 0%nat
  | c :: cs' =>
      (direct h c w + direct_run rtt h cs' (state_of (exec rtt c w)))%nat
  end.

(** A run in which every step completes without error and before the
    shutdown; [alive] tells whether the shutdown is still to come. *)
Fixpoint orderly (alive : bool) (cs : list call) : bool :=
  match cs with
  | [] => true
  | io_complete _ ec _ :: cs' => alive && negb (is_error ec) && orderly alive cs'
  | call_shutdown :: cs' => orderly false cs'
  | _ :: cs' => orderly alive cs'
  end.

(** Every period in use is the initial round trip time. *)
Record initial_periods (rtt : duration_type) (w : world) : Prop :=
  mk_initial_periods {
  per_entries : Forall (fun ie => period (pointee (snd ie)) = rtt) (entries w);
  per_inflight : Forall (fun k => period (pointee (k_entry k)) = rtt)
                        (inflight w);
  per_timer : running (timer w) = true -> timer_period (timer w) = rtt
}.

(** Unfolds the methods and the monad. *)
Ltac unfold_queue :=
  unfold push, apply_ack, shutdown, complete, tick, poll, on_timer_tick,
    continuation_body, start_step, make_shared, post, timer_stop,
    timer_set_period, timer_start, bind, ret, gets, modify, emit,
    state_of, log_of.

(** ** The ordered table *)

Lemma ascending_tail j e m : ascending ((j, e) :: m) -> ascending m.
Proof. unfold ascending; cbn; intros H; now inversion H. Qed.

Lemma ascending_head_lt j e m i e' :
  ascending ((j, e) :: m) -> In (i, e') m -> j < i.
Proof.
  unfold ascending; cbn; intros H Hin.
  inversion H as [|? ? _ Hall]; subst.
  rewrite Forall_forall in Hall.
  apply Hall, (in_map fst _ _ Hin).
Qed.

Lemma map_find_In i m e : map_find i m = Some e -> In (i, e) m.
Proof.
  induction m as [|[j e'] m IH]; cbn; [discriminate|].
  destruct (N.eqb_spec i j) as [->|_].
  - intros [= ->]; now left.
  - intros H; right; auto.
Qed.

Lemma map_find_below i j e m :
  ascending ((j, e) :: m) -> i < j -> map_find i ((j, e) :: m) = None.
Proof.
  intros Hasc Hlt.
  destruct (map_find i ((j, e) :: m)) as [e'|] eqn:Hf; [|reflexivity].
  apply map_find_In in Hf; destruct Hf as [[= -> ->]|Hin]; [lia|].
  pose proof (ascending_head_lt _ _ _ _ _ Hasc Hin); lia.
Qed.

Lemma min_entry_ascending m : ascending m -> min_entry m = hd_error m.
Proof.
  destruct m as [|[j e] m]; [reflexivity|]; intros Hasc; cbn.
  destruct (min_entry m) as [[j' e']|] eqn:Hmin; [|reflexivity].
  assert (Hin : In (j', e') m).
  { clear Hasc; revert j' e' Hmin.
    induction m as [|[a b] m IH]; cbn; [discriminate|]; intros j' e'.
    destruct (min_entry m) as [[c d]|].
    - destruct (a <=? c); intros [= <- <-]; [now left|right; now apply IH].
    - intros [= <- <-]; now left. }
  pose proof (ascending_head_lt _ _ _ _ _ Hasc Hin) as Hlt.
  apply N.lt_le_incl, N.leb_le in Hlt; now rewrite Hlt.
Qed.

Lemma is_head_ascending i m : ascending m -> is_head i m = is_begin i m.
Proof.
  intros Hasc; unfold is_head; rewrite (min_entry_ascending _ Hasc).
  now destruct m as [|[j e] m].
Qed.

Lemma map_insert_present i e' m e :
  ascending m -> map_find i m = Some e -> map_insert i e' m = (m, false).
Proof.
  induction m as [|[j e0] m IH]; cbn; [discriminate|]; intros Hasc Hf.
  destruct (N.ltb_spec i j) as [Hlt|Hge].
  - pose proof (map_find_below i j e0 m Hasc Hlt) as Hnone; cbn in Hnone.
    congruence.
  - destruct (N.eqb_spec i j) as [_|Hne]; [reflexivity|].
    now rewrite (IH (ascending_tail _ _ _ Hasc) Hf).
Qed.

Lemma map_insert_absent i e m :
  map_find i m = None ->
  snd (map_insert i e m) = true /\
  map_find i (fst (map_insert i e m)) = Some e /\
  (forall j, j <> i ->
     map_find j (fst (map_insert i e m)) = map_find j m) /\
  length (fst (map_insert i e m)) = S (length m).
Proof.
  induction m as [|[j e0] m IH]; cbn.
  - intros _; rewrite N.eqb_refl; repeat split.
    intros j Hne; now destruct (N.eqb_spec j i).
  - destruct (N.eqb_spec i j) as [->|Hne]; [discriminate|]; intros Hf.
    destruct (N.ltb_spec i j) as [Hlt|Hge]; cbn.
    + rewrite N.eqb_refl; repeat split.
      intros k Hk; now destruct (N.eqb_spec k i).
    + destruct (IH Hf) as (Hs & Hi & Ho & Hl).
      destruct (map_insert i e m) as [m'' b]; cbn in *.
      destruct (N.eqb_spec i j) as [|_]; [contradiction|].
      repeat split; auto.
      intros k Hk; destruct (k =? j); auto.
Qed.

Lemma map_insert_keys i e m :
  forall k, In k (map fst (fst (map_insert i e m))) ->
            k = i \/ In k (map fst m).
Proof.
  induction m as [|[j e0] m IH]; cbn; intros k.
  - intros [<-|[]]; now left.
  - destruct (i <? j); cbn; [intros [<-|H]; auto|].
    destruct (i =? j); cbn; [auto|].
    destruct (map_insert i e m) as [m'' b]; cbn in *.
    intros [<-|H]; [auto|]. destruct (IH _ H); auto.
Qed.

Lemma map_insert_ascending i e m :
  ascending m -> ascending (fst (map_insert i e m)).
Proof.
  unfold ascending.
  induction m as [|[j e0] m IH]; cbn; intros Hasc.
  - repeat constructor.
  - inversion Hasc as [|? ? Htl Hall]; subst.
    destruct (N.ltb_spec i j) as [Hlt|Hge]; cbn.
    + constructor; [assumption|].
      constructor; [assumption|].
      rewrite Forall_forall in *; intros k Hk; specialize (Hall k Hk); lia.
    + destruct (N.eqb_spec i j) as [_|Hne]; [assumption|].
      specialize (IH Htl).
      pose proof (map_insert_keys i e m) as Hkeys.
      destruct (map_insert i e m) as [m'' b]; cbn in *.
      constructor; [assumption|].
      rewrite Forall_forall in *; intros k Hk.
      destruct (Hkeys k Hk) as [->|Hin]; [lia|auto].
Qed.

Lemma map_erase_keys i m :
  forall k, In k (map fst (map_erase i m)) -> In k (map fst m).
Proof.
  induction m as [|[j e0] m IH]; cbn; intros k; [auto|].
  destruct (i =? j); cbn; [auto|]. intros [<-|H]; auto.
Qed.

Lemma map_erase_ascending i m : ascending m -> ascending (map_erase i m).
Proof.
  unfold ascending.
  induction m as [|[j e0] m IH]; cbn; intros Hasc; [assumption|].
  inversion Hasc as [|? ? Htl Hall]; subst.
  destruct (i =? j); cbn; [assumption|].
  constructor; [auto|].
  rewrite Forall_forall in *; intros k Hk.
  apply Hall, (map_erase_keys i m k Hk).
Qed.

Lemma map_erase_find_same i m :
  ascending m -> map_find i (map_erase i m) = None.
Proof.
  induction m as [|[j e0] m IH]; cbn; intros Hasc; [reflexivity|].
  destruct (N.eqb_spec i j) as [->|Hne].
  - destruct (map_find j m) as [e|] eqn:Hf; [|reflexivity].
    apply map_find_In in Hf.
    pose proof (ascending_head_lt _ _ _ _ _ Hasc Hf); lia.
  - cbn; destruct (N.eqb_spec i j); [contradiction|].
    apply IH, (ascending_tail _ _ _ Hasc).
Qed.

Lemma map_erase_find_other i j m :
  j <> i -> map_find j (map_erase i m) = map_find j m.
Proof.
  intros Hne; induction m as [|[k e0] m IH]; cbn; [reflexivity|].
  destruct (N.eqb_spec i k) as [->|Hik].
  - now destruct (N.eqb_spec j k).
  - cbn; now rewrite IH.
Qed.

Lemma map_erase_In i m ie : In ie (map_erase i m) -> In ie m.
Proof.
  induction m as [|[j e0] m IH]; cbn; [auto|].
  destruct (i =? j); cbn; [auto|]. intros [<-|H]; auto.
Qed.

Lemma map_insert_In i e m ie :
  In ie (fst (map_insert i e m)) -> ie = (i, e) \/ In ie m.
Proof.
  induction m as [|[j e0] m IH]; cbn.
  - intros [<-|[]]; now left.
  - destruct (i <? j); cbn; [intros [<-|H]; auto|].
    destruct (i =? j); cbn; [auto|].
    destruct (map_insert i e m) as [m'' b]; cbn in *.
    intros [<-|H]; [auto|]. destruct (IH H); auto.
Qed.

(** ** The methods, one call at a time *)

Lemma post_cancellations_spec (l : entries_type) (w : world) :
  post_cancellations l w =
  (tt, set_ios (ios w ++ map (fun ie => cancellation (snd ie)) l) w,
   map (fun ie => ev_post (cancellation (snd ie))) l).
Proof.
  revert w; induction l as [|[j e] l IH]; intros w; cbn.
  - unfold ret, set_ios; rewrite app_nil_r; now destruct w.
  - unfold bind, post, emit, modify; cbn; rewrite IH; cbn.
    unfold set_ios; cbn; now rewrite <- app_assoc.
Qed.

Lemma start_step_spec (e : entry_ptr) (w : world) :
  start_step e w =
  (tt, set_inflight (inflight w ++ [mk_continuation e (shutdown_indicator w)]) w,
   [ev_step (step (pointee e)) (mk_continuation e (shutdown_indicator w))]).
Proof. reflexivity. Qed.

(** The methods in closed form. *)

Lemma push_spec (rtt : duration_type) (index : Index) (size : N)
  (st : iteration_step) (h : iteration_handler) (w : world) :
  push rtt index size st h w =
  let entry := mk_ptr (heap_next w) (mk_entry size rtt st h) in
  let k := mk_continuation entry (shutdown_indicator w) in
  let c := mk_closure h already_started 0 in
  match map_insert index entry (entries w) with
  | (es', true) =>
      if map_empty (entries w) then
        (tt, mk_world (ios w) es' (timer w) (shutdown_indicator w)
                      (inflight w ++ [k]) (S (heap_next w)),
         [ev_insert index entry; ev_step st k])
      else
        (tt, mk_world (ios w) es' (timer w) (shutdown_indicator w)
                      (inflight w) (S (heap_next w)),
         [ev_insert index entry])
  | (_, false) =>
      (tt, mk_world (ios w ++ [c]) (entries w) (timer w)
                    (shutdown_indicator w) (inflight w) (S (heap_next w)),
       [ev_post c])
  end.
Proof.
  unfold_queue; unfold empty; cbn.
  destruct (map_insert _ _ (entries w)) as [es' []]; cbn; [|reflexivity].
  now destruct (map_empty (entries w)).
Qed.

Lemma apply_ack_spec (index : Index) (w : world) :
  apply_ack index w =
  match map_find index (entries w) with
  | None => (tt, w, [])
  | Some e =>
      let done :=
        ev_handler (handler (pointee e)) success (buffer_size (pointee e)) in
      let es' := map_erase index (entries w) in
      if is_begin index (entries w) then
        match es' with
        | [] =>
            (tt, mk_world (ios w) es' (mk_timer false (timer_period (timer w)))
                          (shutdown_indicator w) (inflight w) (heap_next w),
             [ev_erase index; ev_timer_stop; done])
        | (_, head) :: _ =>
            let k := mk_continuation head (shutdown_indicator w) in
            (tt, mk_world (ios w) es' (mk_timer false (timer_period (timer w)))
                          (shutdown_indicator w) (inflight w ++ [k])
                          (heap_next w),
             [ev_erase index; ev_timer_stop; ev_step (step (pointee head)) k;
              done])
        end
      else
        (tt, mk_world (ios w) es' (timer w) (shutdown_indicator w)
                      (inflight w) (heap_next w),
         [ev_erase index; done])
  end.
Proof.
  unfold apply_ack, bind, gets; cbn.
  destruct (map_find index (entries w)) as [e|]; [|reflexivity].
  destruct (is_begin index (entries w)); unfold_queue; cbn; [|reflexivity].
  now destruct (map_erase index (entries w)) as [|[j head] rest].
Qed.

Lemma shutdown_spec (w : world) :
  shutdown w =
  (tt, mk_world (ios w ++ map (fun ie => cancellation (snd ie)) (entries w))
                [] (mk_timer false (timer_period (timer w))) false
                (inflight w) (heap_next w),
   [ev_token_reset; ev_timer_stop; ev_detach] ++
   map (fun ie => ev_post (cancellation (snd ie))) (entries w)).
Proof.
  unfold shutdown, bind, emit, modify, gets, timer_stop; cbn.
  now rewrite post_cancellations_spec.
Qed.

Lemma complete_spec (n : nat) (ec : error_code) (bytes : N) (w : world) :
  complete n ec bytes w =
  match nth_error (inflight w) n with
  | None => (tt, w, [])
  | Some k =>
      if negb (k_guard k && shutdown_indicator w) || is_error ec then
        (tt, mk_world (ios w) (entries w) (timer w) (shutdown_indicator w)
                      (remove_nth n (inflight w)) (heap_next w),
         [ev_continuation k ec bytes;
          ev_handler (handler (pointee (k_entry k))) ec bytes])
      else
        (tt, mk_world (ios w) (entries w)
                      (mk_timer true (period (pointee (k_entry k))))
                      (shutdown_indicator w)
                      (remove_nth n (inflight w)) (heap_next w),
         [ev_continuation k ec bytes;
          ev_timer_set_period (period (pointee (k_entry k)));
          ev_timer_start])
  end.
Proof.
  unfold_queue; cbn.
  destruct (nth_error (inflight w) n) as [k|]; [|reflexivity]; cbn.
  now destruct (negb (k_guard k && shutdown_indicator w) || is_error ec).
Qed.

Lemma tick_spec (w : world) :
  tick w =
  if running (timer w) then
    match entries w with
    | [] => (tt, w, [])
    | (_, head) :: _ =>
        let k := mk_continuation head (shutdown_indicator w) in
        (tt, mk_world (ios w) (entries w) (timer w) (shutdown_indicator w)
                      (inflight w ++ [k]) (heap_next w),
         [ev_step (step (pointee head)) k])
    end
  else (tt, w, []).
Proof.
  unfold_queue; cbn.
  destruct (running (timer w)); [|reflexivity].
  destruct (entries w) as [|[j head] rest] eqn:Hes; [reflexivity|].
  unfold set_inflight; cbn; now rewrite Hes.
Qed.

Lemma poll_spec (w : world) :
  poll w =
  match ios w with
  | [] => (tt, w, [])
  | c :: rest =>
      (tt, mk_world rest (entries w) (timer w) (shutdown_indicator w)
                    (inflight w) (heap_next w),
       [ev_handler (cl_handler c) (cl_error c) (cl_bytes c)])
  end.
Proof.
  unfold_queue; cbn.
  now destruct (ios w) as [|c rest].
Qed.

Lemma two_entries_ascending : ascending (entries two_entries).
Proof. unfold ascending; cbn; repeat constructor. Defined.

(** ** The scenarios of the specification *)

Example scenario_duplicate :
  let r := run 1000 [call_push 1 100 11 21; call_push 2 200 12 22;
                     call_push 1 50 13 23] transmit_queue in
  log_of r =
    [ev_insert 1 (mk_ptr 0 (mk_entry 100 1000 11 21));
     ev_step 11 (mk_continuation (mk_ptr 0 (mk_entry 100 1000 11 21)) true);
     ev_insert 2 (mk_ptr 1 (mk_entry 200 1000 12 22));
     ev_post (mk_closure 23 already_started 0)] /\
  min_entry (entries (state_of r))
  = Some (1, mk_ptr 0 (mk_entry 100 1000 11 21)) /\
  size (state_of r) = 2%nat.
Proof. cbv zeta; repeat split. Qed.

Example scenario_ack :
  let r := run 1000 [call_push 1 100 11 21; call_push 2 200 12 22;
                     call_apply_ack 1] transmit_queue in
  log_of r =
    [ev_insert 1 (mk_ptr 0 (mk_entry 100 1000 11 21));
     ev_step 11 (mk_continuation (mk_ptr 0 (mk_entry 100 1000 11 21)) true);
     ev_insert 2 (mk_ptr 1 (mk_entry 200 1000 12 22));
     ev_erase 1;
     ev_timer_stop;
     ev_step 12 (mk_continuation (mk_ptr 1 (mk_entry 200 1000 12 22)) true);
     ev_handler 21 success 100] /\
  size (state_of r) = 1%nat.
Proof. cbv zeta; repeat split. Qed.

Example scenario_shutdown :
  let r := run 1000 [call_push 1 100 11 21; call_shutdown; io_poll;
                     call_apply_ack 1] transmit_queue in
  log_of r =
    [ev_insert 1 (mk_ptr 0 (mk_entry 100 1000 11 21));
     ev_step 11 (mk_continuation (mk_ptr 0 (mk_entry 100 1000 11 21)) true);
     ev_token_reset;
     ev_timer_stop;
     ev_detach;
     ev_post (mk_closure 21 operation_aborted 100);
     ev_handler 21 operation_aborted 100] /\
  size (state_of r) = 0%nat.
Proof. cbv zeta; repeat split. Qed.

(** ** The claims about single calls *)

(** C5: [apply_ack] of an index that is not in the table does nothing: the
    queue and its environment are left as they were and no statement with an
    effect runs, so no handler and no step is called and the timer is not
    touched. *)
Theorem apply_ack_absent_is_noop (index : Index) (w : world) :
  map_find index (entries w) = None ->
  apply_ack index w = (tt, w, []).
Proof.
  intros Habsent; unfold apply_ack, bind, gets; cbn.
  now rewrite Habsent.
Qed.

Lemma apply_ack_absent_is_noop_witness :
  apply_ack 5 two_entries = (tt, two_entries, []).
Proof. apply (apply_ack_absent_is_noop 5 two_entries); reflexivity. Defined.

(** C3: [push] of an index that is already in the table leaves the table,
    the timer, the shutdown token and the continuations in flight as they
    were, calls neither the new step nor any handler, and posts exactly one
    closure, which calls the new handler with [already_started] and 0. *)
Theorem push_duplicate_is_rejected (rtt : duration_type) (index : Index)
  (size : N) (st : iteration_step) (h : iteration_handler) (w : world)
  (e : entry_ptr) :
  ascending (entries w) ->
  map_find index (entries w) = Some e ->
  let r := push rtt index size st h w in
  log_of r = [ev_post (mk_closure h already_started 0)] /\
  filter is_step_call (log_of r) = [] /\
  handler_calls_inline (log_of r) = 0%nat /\
  ios (state_of r) = ios w ++ [mk_closure h already_started 0] /\
  entries (state_of r) = entries w /\
  timer (state_of r) = timer w /\
  shutdown_indicator (state_of r) = shutdown_indicator w /\
  inflight (state_of r) = inflight w.
Proof.
  intros Hasc Hfound; cbv zeta; rewrite push_spec; cbv zeta.
  rewrite (map_insert_present index _ _ e Hasc Hfound).
  repeat split.
Qed.

Lemma push_duplicate_is_rejected_witness :
  let r := push 1000 2 50 13 23 two_entries in
  log_of r = [ev_post (mk_closure 23 already_started 0)] /\
  filter is_step_call (log_of r) = [] /\
  handler_calls_inline (log_of r) = 0%nat /\
  ios (state_of r) = ios two_entries ++ [mk_closure 23 already_started 0] /\
  entries (state_of r) = entries two_entries /\
  timer (state_of r) = timer two_entries /\
  shutdown_indicator (state_of r) = shutdown_indicator two_entries /\
  inflight (state_of r) = inflight two_entries.
Proof.
  apply (push_duplicate_is_rejected 1000 2 50 13 23 two_entries
           (mk_ptr 1 (mk_entry 200 1000 12 22)) two_entries_ascending).
  reflexivity.
Defined.

(** C4: [apply_ack] of an index that is in the table erases the binding
    first; when the binding was the head (the minimum index) the timer is
    stopped and, when bindings remain, the step of the new minimum-index
    entry is called; the handler of the erased entry is called last, with
    success and the entry's buffer size. *)
Theorem apply_ack_present_completes (index : Index) (w : world)
  (e : entry_ptr) :
  ascending (entries w) ->
  map_find index (entries w) = Some e ->
  let r := apply_ack index w in
  let done :=
    ev_handler (handler (pointee e)) success (buffer_size (pointee e)) in
  entries (state_of r) = map_erase index (entries w) /\
  map_find index (entries (state_of r)) = None /\
  (forall j, j <> index ->
     map_find j (entries (state_of r)) = map_find j (entries w)) /\
  (is_head index (entries w) = true ->
     running (timer (state_of r)) = false /\
     log_of r =
       [ev_erase index; ev_timer_stop] ++
       match min_entry (entries (state_of r)) with
       | Some (_, head) =>
           [ev_step (step (pointee head))
                    (mk_continuation head (shutdown_indicator w))]
       | None => []
       end ++ [done]) /\
  (is_head index (entries w) = false ->
     timer (state_of r) = timer w /\
     inflight (state_of r) = inflight w /\
     log_of r = [ev_erase index; done]).
Proof.
  intros Hasc Hfound r done.
  assert (Hasc' : ascending (map_erase index (entries w)))
    by now apply map_erase_ascending.
  assert (Hentries : entries (state_of r) = map_erase index (entries w)).
  { subst r; unfold apply_ack, bind, gets; cbn; rewrite Hfound.
    destruct (is_begin index (entries w)); unfold_queue; cbn;
      [destruct (map_erase index (entries w)) as [|[j head] rest]|];
      reflexivity. }
  rewrite Hentries, (is_head_ascending _ _ Hasc).
  split; [reflexivity|].
  split; [now apply map_erase_find_same|].
  split; [intros j Hj; now apply map_erase_find_other|].
  rewrite (min_entry_ascending _ Hasc').
  subst r; unfold apply_ack, bind, gets; cbn; rewrite Hfound.
  destruct (is_begin index (entries w)); unfold_queue; cbn.
  - split; [intros _|discriminate].
    destruct (map_erase index (entries w)) as [|[j head] rest]; cbn;
      now split.
  - split; [discriminate|intros _]; now repeat split.
Qed.

Lemma apply_ack_present_completes_witness :
  log_of (apply_ack 1 two_entries) =
  [ev_erase 1; ev_timer_stop;
   ev_step 12 (mk_continuation (mk_ptr 1 (mk_entry 200 1000 12 22)) true);
   ev_handler 21 success 100].
Proof.
  pose proof (apply_ack_present_completes 1 two_entries
                (mk_ptr 0 (mk_entry 100 1000 11 21))
                two_entries_ascending eq_refl) as H.
  cbv zeta in H.
  destruct H as (_ & _ & _ & Hhead & _).
  destruct (Hhead eq_refl) as [_ Hlog].
  exact Hlog.
Defined.

(** C6: after [shutdown] the table is empty ([size] is 0); the token is
    reset before the timer is stopped; for every binding the table held one
    closure calling the entry's handler with [operation_aborted] and the
    entry's buffer size is posted, in table order, and nothing else is
    posted and no handler is called inline. *)
Theorem shutdown_cancels_every_entry (w : world) :
  let r := shutdown w in
  size (state_of r) = 0%nat /\
  entries (state_of r) = [] /\
  shutdown_indicator (state_of r) = false /\
  running (timer (state_of r)) = false /\
  log_of r =
    [ev_token_reset; ev_timer_stop; ev_detach] ++
    map (fun ie => ev_post (cancellation (snd ie))) (entries w) /\
  ios (state_of r) =
    ios w ++ map (fun ie => cancellation (snd ie)) (entries w) /\
  length (filter is_completion (log_of r)) = length (entries w) /\
  handler_calls_inline (log_of r) = 0%nat.
Proof.
  unfold shutdown, bind, emit, modify, gets, timer_stop; cbn.
  rewrite post_cancellations_spec; cbn.
  repeat split.
  - induction (entries w) as [|ie l IH]; cbn; congruence.
  - induction (entries w) as [|ie l IH]; cbn; congruence.
Qed.

(** C2: when the continuation of a step is called with an error and the
    token has not been reset, the entry's handler is called with that error
    and byte count and nothing else happens: the table (so also its head)
    and the timer are as before. *)
Theorem step_error_only_calls_handler (w : world) (n : nat)
  (k : continuation) (ec : error_code) (bytes : N) :
  nth_error (inflight w) n = Some k ->
  shutdown_indicator w = true ->
  is_error ec = true ->
  let r := complete n ec bytes w in
  log_of r =
    [ev_continuation k ec bytes;
     ev_handler (handler (pointee (k_entry k))) ec bytes] /\
  entries (state_of r) = entries w /\
  min_entry (entries (state_of r)) = min_entry (entries w) /\
  timer (state_of r) = timer w /\
  shutdown_indicator (state_of r) = true.
Proof.
  intros Hk Halive Herr; unfold_queue; cbn.
  rewrite Hk; cbn; rewrite Herr, orb_true_r; cbn.
  now repeat split.
Qed.

Lemma step_error_only_calls_handler_witness :
  let r := complete 0 (transport_error 5) 0 two_entries in
  log_of r =
    [ev_continuation (mk_continuation (mk_ptr 0 (mk_entry 100 1000 11 21))
                                      true) (transport_error 5) 0;
     ev_handler 21 (transport_error 5) 0] /\
  entries (state_of r) = entries two_entries /\
  min_entry (entries (state_of r)) = min_entry (entries two_entries) /\
  timer (state_of r) = timer two_entries /\
  shutdown_indicator (state_of r) = true.
Proof.
  apply (step_error_only_calls_handler two_entries 0
           (mk_continuation (mk_ptr 0 (mk_entry 100 1000 11 21)) true)
           (transport_error 5) 0); reflexivity.
Defined.





Lemma push_fresh_inserts (rtt : duration_type) (index : Index) (size : N)
  (st : iteration_step) (h : iteration_handler) (w : world) :
  map_find index (entries w) = None ->
  map_find index (entries (state_of (push rtt index size st h w)))
  = Some (mk_ptr (heap_next w) (mk_entry size rtt st h)) /\
  length (entries (state_of (push rtt index size st h w)))
  = S (length (entries w)).
Proof.
  intros Habsent.
  destruct (map_insert_absent index
              (mk_ptr (heap_next w) (mk_entry size rtt st h))
              (entries w) Habsent) as (Hins & Hfind & _ & Hlen).
  rewrite push_spec; cbv zeta.
  destruct (map_insert index _ (entries w)) as [es' inserted].
  cbn in Hins, Hfind, Hlen; subst inserted.
  now destruct (map_empty (entries w)).
Qed.

(** ** What holds at every moment *)

Lemma last_attempt_app (a : nat) (log l : list event) :
  last_attempt a (log ++ l) = fold_left (note_attempt a) l (last_attempt a log).
Proof. unfold last_attempt; now rewrite fold_left_app. Qed.

Lemma last_attempt_fresh (n a : nat) (log : list event) :
  Forall (event_below n) log -> (n <= a)%nat -> last_attempt a log = None.
Proof.
  unfold last_attempt; intros Hlog Hle.
  generalize (@None attempt).
  induction Hlog as [|ev log Hev _ IH]; intros acc; [reflexivity|]; cbn.
  rewrite IH; destruct ev; cbn in *; try reflexivity;
    destruct (Nat.eqb_spec (addr (k_entry k)) a); (reflexivity || lia).
Qed.

Lemma event_below_mono (n m : nat) (ev : event) :
  (n <= m)%nat -> event_below n ev -> event_below m ev.
Proof. destruct ev; cbn; auto; lia. Qed.

Lemma log_below_mono (n m : nat) (log : list event) :
  (n <= m)%nat -> Forall (event_below n) log -> Forall (event_below m) log.
Proof.
  intros Hle; apply Forall_impl; intros ev; now apply event_below_mono.
Qed.

Lemma head_attempt_ok_ascending (w : world) (log : list event) :
  ascending (entries w) ->
  head_attempt_ok w log =
  match entries w with
  | [] => false
  | (_, e) :: _ => attempt_ok (last_attempt (addr e) log)
  end.
Proof.
  intros Hasc; unfold head_attempt_ok.
  rewrite (min_entry_ascending _ Hasc).
  now destruct (entries w) as [|[j e] rest].
Qed.

Lemma remove_nth_In {A : Type} (n : nat) (l : list A) (x : A) :
  In x (remove_nth n l) -> In x l.
Proof.
  revert n; induction l as [|y l IH]; intros [|n]; cbn; auto.
  intros [<-|H]; eauto.
Qed.

Lemma Forall_remove_nth {A : Type} (P : A -> Prop) (n : nat) (l : list A) :
  Forall P l -> Forall P (remove_nth n l).
Proof.
  rewrite !Forall_forall; intros H x Hx; eapply H, remove_nth_In, Hx.
Qed.

Lemma consistent_init : consistent transmit_queue [].
Proof.
  constructor; cbn; try (constructor; fail); try discriminate.
Qed.

Lemma Forall_entries_insert (n : nat) (index : Index) (e : entry_ptr)
  (m : entries_type) :
  Forall (fun ie => (addr (snd ie) < n)%nat) m ->
  (addr e < S n)%nat ->
  Forall (fun ie => (addr (snd ie) < S n)%nat) (fst (map_insert index e m)).
Proof.
  rewrite !Forall_forall; intros Hm He ie Hin.
  destruct (map_insert_In _ _ _ _ Hin) as [->|Hold]; [exact He|].
  specialize (Hm ie Hold); lia.
Qed.

Lemma Forall_entries_erase (P : Index * entry_ptr -> Prop) (index : Index)
  (m : entries_type) :
  Forall P m -> Forall P (map_erase index m).
Proof.
  rewrite !Forall_forall; intros Hm ie Hin; eapply Hm, map_erase_In, Hin.
Qed.

Lemma push_consistent (rtt : duration_type) (index : Index) (size : N)
  (st : iteration_step) (h : iteration_handler) (w : world)
  (log : list event) :
  consistent w log ->
  consistent (state_of (push rtt index size st h w))
             (log ++ log_of (push rtt index size st h w)).
Proof.
  intros [Hasc Htimer Hguard Hentries Hinflight Hlog Hretry].
  pose proof (log_below_mono _ (S (heap_next w)) _ (Nat.le_succ_diag_r _) Hlog)
    as Hlog'.
  assert (Hinflight' :
            Forall (fun k => (addr (k_entry k) < S (heap_next w))%nat)
                   (inflight w)).
  { eapply Forall_impl; [|exact Hinflight]; cbn; intros; lia. }
  rewrite push_spec; cbv zeta.
  set (entry := mk_ptr (heap_next w) (mk_entry size rtt st h)).
  pose proof (map_insert_ascending index entry _ Hasc) as Hasc'.
  pose proof (Forall_entries_insert _ index entry _ Hentries
                (Nat.lt_succ_diag_r _)) as Hentries'.
  rewrite (head_attempt_ok_ascending _ _ Hasc) in Hretry.
  destruct (map_insert index entry (entries w)) as [es' inserted] eqn:Hins.
  cbn [fst] in Hasc', Hentries'.
  destruct inserted.
  - destruct (entries w) as [|[j e0] rest] eqn:Hes; cbn [map_empty].
    + constructor; unfold state_of, log_of; cbn; auto.
      * intros Halive; apply Forall_app; split; auto.
      * apply Forall_app; split; auto.
      * apply Forall_app; split; auto.
        repeat constructor; cbn; lia.
      * intros _; rewrite head_attempt_ok_ascending by exact Hasc'.
        cbn in Hins; injection Hins as <-; cbn.
        rewrite last_attempt_app; cbn.
        now rewrite Nat.eqb_refl.
    + constructor; unfold state_of, log_of; cbn; auto.
      * apply Forall_app; split; auto.
        repeat constructor; cbn; lia.
      * intros Halive; rewrite head_attempt_ok_ascending by exact Hasc'.
        cbn [entries]; cbn in Hins.
        destruct (index <? j).
        { injection Hins as <-.
          rewrite last_attempt_app; cbn.
          rewrite (last_attempt_fresh _ _ _ Hlog (Nat.le_refl _)).
          discriminate. }
        destruct (index =? j); [discriminate|].
        destruct (map_insert index entry rest) as [m'' b].
        injection Hins as <- _.
        rewrite last_attempt_app; cbn. auto.
  - constructor; unfold state_of, log_of; cbn; auto.
    + eapply Forall_impl; [|exact Hentries]; cbn; intros; lia.
    + apply Forall_app; split; auto.
      repeat constructor.
    + intros Halive; rewrite head_attempt_ok_ascending by exact Hasc.
      cbn [entries].
      destruct (entries w) as [|[j e0] rest]; [discriminate|].
      rewrite last_attempt_app; cbn. auto.
Qed.

Lemma apply_ack_consistent (index : Index) (w : world) (log : list event) :
  consistent w log ->
  consistent (state_of (apply_ack index w))
             (log ++ log_of (apply_ack index w)).
Proof.
  intros Hcons; rewrite apply_ack_spec; cbv zeta.
  destruct (map_find index (entries w)) as [e|] eqn:Hfound;
    [|unfold state_of, log_of; cbn; now rewrite app_nil_r].
  destruct Hcons as [Hasc Htimer Hguard Hentries Hinflight Hlog Hretry].
  pose proof (map_erase_ascending index _ Hasc) as Hasc'.
  pose proof (Forall_entries_erase _ index _ Hentries) as Hentries'.
  rewrite (head_attempt_ok_ascending _ _ Hasc) in Hretry.
  destruct (is_begin index (entries w)) eqn:Hbegin.
  - destruct (map_erase index (entries w)) as [|[j head] rest] eqn:Herase.
    + constructor; unfold state_of, log_of; cbn; auto; try discriminate.
      apply Forall_app; split; auto. repeat constructor.
    + assert (Hhead : (addr head < heap_next w)%nat).
      { inversion Hentries'; assumption. }
      constructor; unfold state_of, log_of; cbn; auto; try discriminate.
      * intros Halive; apply Forall_app; split; auto.
      * apply Forall_app; split; auto.
      * apply Forall_app; split; auto. repeat constructor; exact Hhead.
      * intros _; rewrite head_attempt_ok_ascending by exact Hasc'.
        cbn [entries]; rewrite last_attempt_app; cbn.
        now rewrite Nat.eqb_refl.
  - constructor; unfold state_of, log_of; cbn; auto.
    + apply Forall_app; split; auto. repeat constructor.
    + intros Halive; rewrite head_attempt_ok_ascending by exact Hasc'.
      cbn [entries].
      destruct (entries w) as [|[j e0] rest]; [discriminate|].
      cbn in Hbegin |- *; rewrite Hbegin.
      rewrite last_attempt_app; cbn. auto.
Qed.

Lemma shutdown_consistent (w : world) (log : list event) :
  consistent w log ->
  consistent (state_of (shutdown w)) (log ++ log_of (shutdown w)).
Proof.
  intros [Hasc Htimer Hguard Hentries Hinflight Hlog Hretry].
  rewrite shutdown_spec.
  constructor; unfold state_of, log_of; cbn; auto; try discriminate.
  - constructor.
  - apply Forall_app; split; auto.
    repeat constructor.
    apply Forall_forall; intros ev Hin.
    apply in_map_iff in Hin; destruct Hin as (ie & <- & _); exact I.
Qed.

Lemma complete_consistent (n : nat) (ec : error_code) (bytes : N)
  (w : world) (log : list event) :
  consistent w log ->
  consistent (state_of (complete n ec bytes w))
             (log ++ log_of (complete n ec bytes w)).
Proof.
  intros Hcons; rewrite complete_spec.
  destruct (nth_error (inflight w) n) as [k|] eqn:Hk;
    [|unfold state_of, log_of; cbn; now rewrite app_nil_r].
  destruct Hcons as [Hasc Htimer Hguard Hentries Hinflight Hlog Hretry].
  rewrite (head_attempt_ok_ascending _ _ Hasc) in Hretry.
  apply nth_error_In in Hk.
  assert (Hkbelow : (addr (k_entry k) < heap_next w)%nat).
  { rewrite Forall_forall in Hinflight; now apply Hinflight. }
  destruct (negb (k_guard k && shutdown_indicator w) || is_error ec)
    eqn:Hbranch.
  - constructor; unfold state_of, log_of; cbn; auto.
    + intros Halive; apply Forall_remove_nth; auto.
    + now apply Forall_remove_nth.
    + apply Forall_app; split; auto. repeat constructor; exact Hkbelow.
    + intros Halive; rewrite head_attempt_ok_ascending by exact Hasc.
      cbn [entries].
      destruct (entries w) as [|[j e0] rest]; [discriminate|].
      rewrite last_attempt_app; cbn.
      destruct (Nat.eqb (addr (k_entry k)) (addr e0)); [|auto].
      specialize (Hguard Halive); rewrite Forall_forall in Hguard.
      rewrite (Hguard k Hk), Halive in Hbranch; cbn in Hbranch.
      destruct ec; cbn in *; discriminate.
  - apply orb_false_elim in Hbranch; destruct Hbranch as [Hlock _].
    apply negb_false_iff, andb_true_iff in Hlock; destruct Hlock as [_ Hal].
    constructor; unfold state_of, log_of; cbn; auto.
    + intros Halive; apply Forall_remove_nth; auto.
    + now apply Forall_remove_nth.
    + apply Forall_app; split; auto. repeat constructor; exact Hkbelow.
Qed.

Lemma tick_consistent (w : world) (log : list event) :
  consistent w log ->
  consistent (state_of (tick w)) (log ++ log_of (tick w)).
Proof.
  intros Hcons; rewrite tick_spec.
  destruct (running (timer w)) eqn:Hrun;
    [|unfold state_of, log_of; cbn; now rewrite app_nil_r].
  destruct (entries w) as [|[j head] rest] eqn:Hes;
    [unfold state_of, log_of; cbn; now rewrite app_nil_r|].
  destruct Hcons as [Hasc Htimer Hguard Hentries Hinflight Hlog Hretry].
  rewrite Hes in Hasc, Hentries.
  assert (Hhead : (addr head < heap_next w)%nat).
  { inversion Hentries; assumption. }
  cbv zeta; constructor; unfold state_of, log_of; cbn; auto.
  - intros Halive; apply Forall_app; split; auto.
  - apply Forall_app; split; auto.
  - apply Forall_app; split; auto; repeat constructor; exact Hhead.
Qed.

Lemma poll_consistent (w : world) (log : list event) :
  consistent w log ->
  consistent (state_of (poll w)) (log ++ log_of (poll w)).
Proof.
  intros Hcons; rewrite poll_spec.
  destruct (ios w) as [|c rest] eqn:Hios;
    [unfold state_of, log_of; cbn; now rewrite app_nil_r|].
  destruct Hcons as [Hasc Htimer Hguard Hentries Hinflight Hlog Hretry].
  rewrite (head_attempt_ok_ascending _ _ Hasc) in Hretry.
  constructor; unfold state_of, log_of; cbn; auto.
  - apply Forall_app; split; auto. repeat constructor.
  - intros Halive; rewrite head_attempt_ok_ascending by exact Hasc.
    cbn [entries].
    destruct (entries w) as [|[j e0] rest']; [discriminate|].
    rewrite last_attempt_app; cbn. auto.
Qed.

Lemma exec_consistent (rtt : duration_type) (c : call) (w : world)
  (log : list event) :
  consistent w log ->
  consistent (state_of (exec rtt c w)) (log ++ log_of (exec rtt c w)).
Proof.
  destruct c; cbn [exec].
  - apply push_consistent.
  - apply apply_ack_consistent.
  - apply shutdown_consistent.
  - apply complete_consistent.
  - apply tick_consistent.
  - apply poll_consistent.
Qed.

(** ** Runs *)

Lemma run_cons_state (rtt : duration_type) (c : call) (cs : list call)
  (w : world) :
  state_of (run rtt (c :: cs) w) = state_of (run rtt cs (state_of (exec rtt c w))).
Proof.
  cbn [run]; unfold bind, state_of.
  destruct (exec rtt c w) as [[[] w1] t1]; cbn.
  now destruct (run rtt cs w1) as [[[] w2] t2].
Qed.

Lemma run_cons_log (rtt : duration_type) (c : call) (cs : list call)
  (w : world) :
  log_of (run rtt (c :: cs) w) =
  log_of (exec rtt c w) ++ log_of (run rtt cs (state_of (exec rtt c w))).
Proof.
  cbn [run]; unfold bind, state_of, log_of.
  destruct (exec rtt c w) as [[[] w1] t1]; cbn.
  now destruct (run rtt cs w1) as [[[] w2] t2].
Qed.

Lemma run_consistent (rtt : duration_type) (cs : list call) (w : world)
  (log : list event) :
  consistent w log ->
  consistent (state_of (run rtt cs w)) (log ++ log_of (run rtt cs w)).
Proof.
  revert w log; induction cs as [|c cs IH]; intros w log Hcons.
  - unfold state_of, log_of; cbn; now rewrite app_nil_r.
  - rewrite run_cons_state, run_cons_log, app_assoc.
    apply IH, exec_consistent, Hcons.
Qed.

Lemma reachable_consistent (rtt : duration_type) (cs : list call) :
  consistent (state_of (run rtt cs transmit_queue))
             (log_of (run rtt cs transmit_queue)).
Proof. exact (run_consistent rtt cs transmit_queue [] consistent_init). Qed.

(** Once the token is reset it stays reset and the timer stays as
    [shutdown] left it. *)
Lemma exec_after_shutdown (rtt : duration_type) (c : call) (w : world) :
  shutdown_indicator w = false ->
  running (timer w) = false ->
  shutdown_indicator (state_of (exec rtt c w)) = false /\
  timer (state_of (exec rtt c w)) = timer w.
Proof.
  intros Hdead Hstopped.
  assert (Heta : mk_timer false (timer_period (timer w)) = timer w).
  { destruct (timer w); cbn in *; now subst. }
  destruct c as [index size st h|index| |n ec bytes| |]; cbn [exec].
  - rewrite push_spec; cbv zeta.
    destruct (map_insert index _ (entries w)) as [es' []];
      [destruct (map_empty (entries w))|]; now split.
  - rewrite apply_ack_spec; cbv zeta.
    destruct (map_find index (entries w)) as [e|]; [|now split].
    destruct (is_begin index (entries w)); [|now split].
    destruct (map_erase index (entries w)) as [|[j head] rest]; now split.
  - rewrite shutdown_spec; now split.
  - rewrite complete_spec.
    destruct (nth_error (inflight w) n) as [k|]; [|now split].
    rewrite Hdead, andb_false_r; cbn. now split.
  - rewrite tick_spec, Hstopped. now split.
  - rewrite poll_spec. destruct (ios w); now split.
Qed.

Lemma run_after_shutdown (rtt : duration_type) (cs : list call) (w : world) :
  shutdown_indicator w = false ->
  running (timer w) = false ->
  shutdown_indicator (state_of (run rtt cs w)) = false /\
  timer (state_of (run rtt cs w)) = timer w.
Proof.
  revert w; induction cs as [|c cs IH]; intros w Hdead Hstopped.
  - now split.
  - rewrite run_cons_state.
    destruct (exec_after_shutdown rtt c w Hdead Hstopped) as [Hd Ht].
    destruct (IH (state_of (exec rtt c w)) Hd) as [Hd' Ht'];
      [now rewrite Ht|].
    split; [exact Hd'|now rewrite Ht'].
Qed.

(** Without a [push] an empty table stays empty. *)
Lemma exec_keeps_empty (rtt : duration_type) (c : call) (w : world) :
  is_push c = false ->
  entries w = [] ->
  entries (state_of (exec rtt c w)) = [].
Proof.
  intros Hc Hempty.
  destruct c as [index size st h|index| |n ec bytes| |]; cbn [exec];
    [discriminate| | | | |].
  - rewrite apply_ack_spec, Hempty; cbn; exact Hempty.
  - rewrite shutdown_spec; reflexivity.
  - rewrite complete_spec.
    destruct (nth_error (inflight w) n) as [k|]; [|exact Hempty].
    now destruct (negb (k_guard k && shutdown_indicator w) || is_error ec).
  - rewrite tick_spec, Hempty. now destruct (running (timer w)).
  - rewrite poll_spec. now destruct (ios w).
Qed.

Lemma run_keeps_empty (rtt : duration_type) (cs : list call) (w : world) :
  forallb (fun c => negb (is_push c)) cs = true ->
  entries w = [] ->
  entries (state_of (run rtt cs w)) = [].
Proof.
  revert w; induction cs as [|c cs IH]; intros w Hcs Hempty; [exact Hempty|].
  cbn in Hcs; apply andb_true_iff in Hcs; destruct Hcs as [Hc Hcs].
  rewrite run_cons_state; apply IH; [exact Hcs|].
  apply exec_keeps_empty; [now apply negb_true_iff|exact Hempty].
Qed.

(** ** The claims about whole runs *)

(** C8, as stated, fails: after [late_completion] the timer runs although
    the table is empty. *)
Lemma timer_runs_over_empty_table :
  let r := run 1000 late_completion transmit_queue in
  running (timer (state_of r)) = true /\
  entries (state_of r) = [] /\
  ~ timer_runs_iff_head_retried (state_of r) (log_of r).
Proof.
  cbv zeta; split; [reflexivity|split; [reflexivity|]].
  intros [Hif _].
  destruct (Hif eq_refl) as [Hnonempty _].
  now apply Hnonempty.
Qed.

(** The timer also runs over a head that was never attempted. *)
Lemma timer_runs_over_unattempted_head :
  let r := run 1000 smaller_index_pushed transmit_queue in
  running (timer (state_of r)) = true /\
  map fst (entries (state_of r)) = [1; 2] /\
  head_attempt_ok (state_of r) (log_of r) = false.
Proof. cbv zeta; repeat split. Qed.

(** C8, amended: at every moment of every run, a running timer means that
    the queue has not been shut down; and when the table is not empty, the
    head's most recent attempt completed without error and the queue has
    not been shut down, the timer runs. *)
Theorem timer_running_invariant (rtt : duration_type) (cs : list call) :
  let r := run rtt cs transmit_queue in
  (running (timer (state_of r)) = true ->
   shutdown_indicator (state_of r) = true) /\
  (entries (state_of r) <> [] ->
   head_attempt_ok (state_of r) (log_of r) = true ->
   shutdown_indicator (state_of r) = true ->
   running (timer (state_of r)) = true).
Proof.
  cbv zeta; destruct (reachable_consistent rtt cs) as [_ Ht _ _ _ _ Hr].
  split; [exact Ht|]; intros _ Hok Halive; now apply Hr.
Qed.

Lemma timer_running_invariant_witness :
  let r := run 1000 [call_push 1 100 11 21; io_complete 0 success 100]
               transmit_queue in
  shutdown_indicator (state_of r) = true /\
  running (timer (state_of r)) = true.
Proof.
  pose proof (timer_running_invariant 1000
                [call_push 1 100 11 21; io_complete 0 success 100]) as H.
  cbv zeta in H; destruct H as [Hthen Hif].
  cbv zeta; split.
  - apply Hthen; reflexivity.
  - apply Hif; [discriminate|reflexivity|reflexivity].
Defined.

(** C9, as stated, fails: after [shutdown] a [push] of a fresh index inserts
    its entry and calls its step. *)
Lemma push_after_shutdown_inserts :
  let before := run 1000 [call_push 1 100 11 21; call_shutdown; io_poll]
                    transmit_queue in
  let r := push 1000 2 200 12 22 (state_of before) in
  shutdown_indicator (state_of before) = false /\
  entries (state_of before) = [] /\
  entries (state_of r) = [(2, mk_ptr 1 (mk_entry 200 1000 12 22))] /\
  log_of r =
    [ev_insert 2 (mk_ptr 1 (mk_entry 200 1000 12 22));
     ev_step 12 (mk_continuation (mk_ptr 1 (mk_entry 200 1000 12 22)) false)]
  /\ size (state_of (run 1000 push_after_shutdown transmit_queue)) = 1%nat.
Proof. cbv zeta; repeat split. Qed.

(** C9, amended: [shutdown] empties the table and is terminal for the token
    and the timer: whatever is called afterwards, the token stays reset and
    the timer stays stopped.  The table is not closed: a later [push] of an
    index that is not in it inserts the entry. *)
Theorem shutdown_is_terminal_for_token_and_timer (rtt : duration_type)
  (w : world) (cs : list call) :
  let w1 := state_of (shutdown w) in
  let w2 := state_of (run rtt cs w1) in
  entries w1 = [] /\
  shutdown_indicator w2 = false /\
  running (timer w2) = false /\
  (forall (index : Index) (size : N) (st : iteration_step)
          (h : iteration_handler),
     map_find index (entries w2) = None ->
     map_find index (entries (state_of (push rtt index size st h w2)))
     = Some (mk_ptr (heap_next w2) (mk_entry size rtt st h))).
Proof.
  cbv zeta.
  assert (Hdead : shutdown_indicator (state_of (shutdown w)) = false)
    by now rewrite shutdown_spec.
  assert (Hstopped : running (timer (state_of (shutdown w))) = false)
    by now rewrite shutdown_spec.
  destruct (run_after_shutdown rtt cs _ Hdead Hstopped) as [Hd Ht].
  split; [now rewrite shutdown_spec|].
  split; [exact Hd|].
  split; [now rewrite Ht|].
  intros index size st h Habsent.
  now destruct (push_fresh_inserts rtt index size st h _ Habsent).
Qed.

Lemma shutdown_is_terminal_for_token_and_timer_witness :
  let w2 := state_of (run 1000 [io_complete 0 success 100; io_tick]
                          (state_of (shutdown two_entries))) in
  shutdown_indicator w2 = false /\
  running (timer w2) = false /\
  map_find 2 (entries (state_of (push 1000 2 200 12 22 w2)))
  = Some (mk_ptr 2 (mk_entry 200 1000 12 22)).
Proof.
  pose proof (shutdown_is_terminal_for_token_and_timer 1000 two_entries
                [io_complete 0 success 100; io_tick]) as H.
  cbv zeta in H; destruct H as (_ & Hd & Ht & Hpush).
  cbv zeta; split; [exact Hd|split; [exact Ht|]].
  apply (Hpush 2 200 12 22); reflexivity.
Defined.

(** C10: a second [shutdown], with no [push] since the first, changes
    nothing: the table is still empty, the timer stopped and the token
    reset, the queue and its environment are left exactly as they were, no
    handler is called and nothing is posted. *)
Theorem second_shutdown_is_noop (rtt : duration_type) (w : world)
  (cs : list call) :
  forallb (fun c => negb (is_push c)) cs = true ->
  let w1 := state_of (shutdown w) in
  let w2 := state_of (run rtt cs w1) in
  shutdown w2 = (tt, w2, [ev_token_reset; ev_timer_stop; ev_detach]) /\
  filter is_completion (log_of (shutdown w2)) = [] /\
  entries w2 = entries w1 /\
  size w2 = 0%nat /\
  timer w2 = timer w1 /\
  shutdown_indicator w2 = shutdown_indicator w1.
Proof.
  intros Hcs; cbv zeta.
  assert (Hdead : shutdown_indicator (state_of (shutdown w)) = false)
    by now rewrite shutdown_spec.
  assert (Hstopped : running (timer (state_of (shutdown w))) = false)
    by now rewrite shutdown_spec.
  assert (Hempty : entries (state_of (shutdown w)) = [])
    by now rewrite shutdown_spec.
  destruct (run_after_shutdown rtt cs _ Hdead Hstopped) as [Hd Ht].
  pose proof (run_keeps_empty rtt cs _ Hcs Hempty) as He.
  assert (Hrun : running (timer (state_of (run rtt cs (state_of (shutdown w)))))
                 = false) by now rewrite Ht.
  set (w2 := state_of (run rtt cs (state_of (shutdown w)))) in *.
  assert (Hagain :
            shutdown w2 = (tt, w2, [ev_token_reset; ev_timer_stop; ev_detach])).
  { rewrite shutdown_spec, He; cbn; rewrite app_nil_r.
    destruct w2 as [i e [tr tp] s f n]; cbn in *; now subst. }
  rewrite Hagain; unfold size; rewrite He, Hempty, Hd, Hdead.
  now repeat split.
Qed.

Lemma second_shutdown_is_noop_witness :
  let w2 := state_of (run 1000 [call_apply_ack 1; io_poll;
                                io_complete 0 success 100]
                          (state_of (shutdown two_entries))) in
  shutdown w2 = (tt, w2, [ev_token_reset; ev_timer_stop; ev_detach]).
Proof.
  pose proof (second_shutdown_is_noop 1000 two_entries
                [call_apply_ack 1; io_poll; io_complete 0 success 100]
                eq_refl) as H.
  cbv zeta in H; destruct H as [Hagain _]; exact Hagain.
Defined.

(** C1, at the failing input: a step fails, so the handler is called with
    the transport error, the entry stays in the table, and the later
    acknowledgment calls the same handler again.  The same happens when the
    queue is shut down while a step is in flight: the posted cancellation
    and the late continuation both call the handler. *)
Theorem handler_called_twice :
  handler_calls 21 (log_of (run 1000 error_then_ack transmit_queue)) = 2%nat
  /\
  log_of (run 1000 error_then_ack transmit_queue) =
    [ev_insert 1 (mk_ptr 0 (mk_entry 100 1000 11 21));
     ev_step 11 (mk_continuation (mk_ptr 0 (mk_entry 100 1000 11 21)) true);
     ev_continuation (mk_continuation (mk_ptr 0 (mk_entry 100 1000 11 21))
                                      true) (transport_error 5) 0;
     ev_handler 21 (transport_error 5) 0;
     ev_erase 1;
     ev_timer_stop;
     ev_handler 21 success 100]
  /\
  handler_calls 21 (log_of (run 1000 shutdown_then_completion transmit_queue))
  = 2%nat.
Proof. repeat split. Qed.

(** ** Further properties of the table *)

Lemma ascending_NoDup (m : entries_type) : ascending m -> NoDup (map fst m).
Proof.
  unfold ascending; induction 1 as [|j l _ IH Hall]; constructor; [|exact IH].
  intros Hin; rewrite Forall_forall in Hall.
  specialize (Hall j Hin); lia.
Qed.

Lemma map_erase_length (index : Index) (m : entries_type) (e : entry_ptr) :
  map_find index m = Some e -> S (length (map_erase index m)) = length m.
Proof.
  induction m as [|[j e0] m IH]; cbn; [discriminate|].
  destruct (index =? j); [reflexivity|].
  intros Hf; cbn; now rewrite (IH Hf).
Qed.

Lemma map_insert_rejected (index : Index) (e : entry_ptr) (m : entries_type) :
  snd (map_insert index e m) = false ->
  exists e', map_find index m = Some e'.
Proof.
  induction m as [|[j e0] m IH]; cbn; [discriminate|].
  destruct (index <? j); [discriminate|].
  destruct (N.eqb_spec index j) as [->|Hne]; [now exists e0|].
  destruct (map_insert index e m) as [m'' b]; cbn in *. exact IH.
Qed.

Lemma map_erase_insert (index : Index) (e : entry_ptr) (m : entries_type) :
  map_find index m = None ->
  map_erase index (fst (map_insert index e m)) = m.
Proof.
  induction m as [|[j e0] m IH]; cbn.
  - now rewrite N.eqb_refl.
  - destruct (N.eqb_spec index j) as [->|Hne]; [discriminate|]; intros Hf.
    destruct (index <? j); cbn.
    + now rewrite N.eqb_refl.
    + specialize (IH Hf).
      destruct (map_insert index e m) as [m'' b]; cbn in *.
      destruct (N.eqb_spec index j); [contradiction|]. now rewrite IH.
Qed.

Lemma apply_ack_entries (index : Index) (w : world) :
  entries (state_of (apply_ack index w)) = map_erase index (entries w).
Proof.
  rewrite apply_ack_spec; cbv zeta.
  destruct (map_find index (entries w)) as [e|] eqn:Hfound.
  - destruct (is_begin index (entries w)); [|reflexivity].
    now destruct (map_erase index (entries w)) as [|[j head] rest].
  - cbn; induction (entries w) as [|[j e0] m IH]; cbn in *; [reflexivity|].
    destruct (index =? j); [discriminate|]. now rewrite <- IH.
Qed.

(** X1: whatever has been called on a new queue, the table is in strictly
    ascending key order: no index is bound twice and the binding [begin()]
    points at is the one with the minimum index. *)
Theorem table_stays_in_key_order (rtt : duration_type) (cs : list call) :
  let w := state_of (run rtt cs transmit_queue) in
  ascending (entries w) /\
  NoDup (map fst (entries w)) /\
  min_entry (entries w) = hd_error (entries w).
Proof.
  cbv zeta; destruct (reachable_consistent rtt cs) as [Hasc _ _ _ _ _ _].
  split; [exact Hasc|split].
  - now apply ascending_NoDup.
  - now apply min_entry_ascending.
Qed.

(** X2: [on_timer_tick] does nothing on an empty table; otherwise it calls
    the step of the entry with the minimum index, whether or not an earlier
    attempt is still in flight, and touches neither the table, the timer nor
    the token. *)
Theorem on_timer_tick_retries_head (w : world) :
  ascending (entries w) ->
  match min_entry (entries w) with
  | None => on_timer_tick w = (tt, w, [])
  | Some (_, head) =>
      let k := mk_continuation head (shutdown_indicator w) in
      let r := on_timer_tick w in
      log_of r = [ev_step (step (pointee head)) k] /\
      inflight (state_of r) = inflight w ++ [k] /\
      entries (state_of r) = entries w /\
      timer (state_of r) = timer w /\
      shutdown_indicator (state_of r) = shutdown_indicator w /\
      ios (state_of r) = ios w
  end.
Proof.
  intros Hasc; rewrite (min_entry_ascending _ Hasc).
  unfold on_timer_tick, bind, gets; cbn.
  destruct (entries w) as [|[j head] rest] eqn:Hes; cbn; [reflexivity|].
  unfold_queue; cbn; rewrite ?Hes. now repeat split.
Qed.

Lemma on_timer_tick_retries_head_witness :
  log_of (on_timer_tick two_entries) =
  [ev_step 11 (mk_continuation (mk_ptr 0 (mk_entry 100 1000 11 21)) true)]
  /\ timer (state_of (on_timer_tick two_entries)) = timer two_entries.
Proof.
  pose proof (on_timer_tick_retries_head two_entries two_entries_ascending)
    as H.
  cbn in H; destruct H as (Hlog & _ & _ & Htimer & _).
  split; [exact Hlog|exact Htimer].
Defined.

(** X3: [size] counts the bindings: a [push] adds one when the index was
    absent and none when it was present, an [apply_ack] removes one when the
    index was present and none when it was absent, and [empty] holds exactly
    when [size] is 0. *)
Theorem size_counts_entries (rtt : duration_type) (index : Index)
  (sz : N) (st : iteration_step) (h : iteration_handler) (w : world) :
  ascending (entries w) ->
  size (state_of (push rtt index sz st h w)) =
    (match map_find index (entries w) with
     | Some _ => size w
     | None => S (size w)
     end) /\
  size w =
    (match map_find index (entries w) with
     | Some _ => S (size (state_of (apply_ack index w)))
     | None => size (state_of (apply_ack index w))
     end) /\
  (empty w = true <-> size w = 0%nat).
Proof.
  intros Hasc; unfold size, empty; rewrite apply_ack_entries.
  split; [|split].
  - destruct (map_find index (entries w)) as [e|] eqn:Hfound.
    + rewrite push_spec; cbv zeta.
      now rewrite (map_insert_present index _ _ e Hasc Hfound).
    + now destruct (push_fresh_inserts rtt index sz st h w Hfound).
  - destruct (map_find index (entries w)) as [e|] eqn:Hfound.
    + now rewrite (map_erase_length _ _ _ Hfound).
    + clear Hasc; induction (entries w) as [|[j e0] m IH]; cbn in *;
        [reflexivity|].
      destruct (index =? j); [discriminate|]. cbn; now rewrite <- IH.
  - destruct (entries w); cbn; split; (reflexivity || discriminate).
Qed.

Lemma size_counts_entries_witness :
  size (state_of (push 1000 3 300 13 23 two_entries)) = 3%nat /\
  size (state_of (push 1000 2 50 13 23 two_entries)) = 2%nat /\
  size (state_of (apply_ack 2 two_entries)) = 1%nat.
Proof.
  destruct (size_counts_entries 1000 3 300 13 23 two_entries
              two_entries_ascending) as (Hfresh & _ & _).
  destruct (size_counts_entries 1000 2 50 13 23 two_entries
              two_entries_ascending) as (Hdup & Hack & _).
  split; [exact Hfresh|split; [exact Hdup|]].
  apply eq_add_S; symmetry; exact Hack.
Defined.

Lemma push_fresh_entries (rtt : duration_type) (index : Index) (sz : N)
  (st : iteration_step) (h : iteration_handler) (w : world) :
  map_find index (entries w) = None ->
  entries (state_of (push rtt index sz st h w)) =
  fst (map_insert index (mk_ptr (heap_next w) (mk_entry sz rtt st h))
                  (entries w)) /\
  ios (state_of (push rtt index sz st h w)) = ios w.
Proof.
  intros Habsent.
  destruct (map_insert_absent index
              (mk_ptr (heap_next w) (mk_entry sz rtt st h))
              (entries w) Habsent) as (Hins & _).
  rewrite push_spec; cbv zeta.
  destruct (map_insert index _ (entries w)) as [es' inserted].
  cbn in Hins; subst inserted.
  now destruct (map_empty (entries w)).
Qed.

(** X4: a [push] of an index that is not in the table followed by the
    [apply_ack] of that index leaves the table as it was before the push,
    and the acknowledgment calls exactly one handler, the pushed one, with
    success and the pushed buffer size. *)
Theorem push_then_ack_restores_table (rtt : duration_type) (index : Index)
  (sz : N) (st : iteration_step) (h : iteration_handler) (w : world) :
  map_find index (entries w) = None ->
  let w1 := state_of (push rtt index sz st h w) in
  let r := apply_ack index w1 in
  entries (state_of r) = entries w /\
  ios (state_of r) = ios w /\
  handler_calls_inline (log_of r) = 1%nat /\
  In (ev_handler h success sz) (log_of r).
Proof.
  intros Habsent; cbv zeta.
  destruct (push_fresh_entries rtt index sz st h w Habsent) as [Hes Hios].
  destruct (push_fresh_inserts rtt index sz st h w Habsent) as [Hfound _].
  split; [now rewrite apply_ack_entries, Hes, map_erase_insert|].
  revert Hfound Hios.
  generalize (state_of (push rtt index sz st h w)); intros w1 Hfound Hios.
  rewrite apply_ack_spec, Hfound; cbv zeta.
  destruct (is_begin index (entries w1));
    [destruct (map_erase index (entries w1)) as [|[j head] rest]|];
    cbn; auto 10.
Qed.

Lemma push_then_ack_restores_table_witness :
  let r := apply_ack 3 (state_of (push 1000 3 300 13 23 two_entries)) in
  entries (state_of r) = entries two_entries /\
  In (ev_handler 23 success 300) (log_of r).
Proof.
  destruct (push_then_ack_restores_table 1000 3 300 13 23 two_entries
              eq_refl) as (Hes & _ & _ & Hin).
  cbv zeta; split; [exact Hes|exact Hin].
Defined.

(** X5: acknowledging an index twice completes it once: right after an
    [apply_ack] of an index a second [apply_ack] of the same index changes
    nothing and calls nothing. *)
Theorem apply_ack_twice_is_once (index : Index) (w : world) :
  ascending (entries w) ->
  apply_ack index (state_of (apply_ack index w)) =
  (tt, state_of (apply_ack index w), []).
Proof.
  intros Hasc.
  assert (Habsent :
            map_find index (entries (state_of (apply_ack index w))) = None).
  { rewrite apply_ack_entries; now apply map_erase_find_same. }
  revert Habsent; generalize (state_of (apply_ack index w)); intros w1 Habsent.
  now rewrite apply_ack_spec, Habsent.
Qed.

Lemma apply_ack_twice_is_once_witness :
  log_of (apply_ack 1 (state_of (apply_ack 1 two_entries))) = [].
Proof.
  now rewrite (apply_ack_twice_is_once 1 two_entries two_entries_ascending).
Defined.

(** X6: once the token has been reset, a continuation that is called never
    touches the timer or the table: whatever the step reports, success
    included, it is handed to the entry's handler. *)
Theorem completion_after_shutdown_calls_handler (w : world) (n : nat)
  (k : continuation) (ec : error_code) (bytes : N) :
  shutdown_indicator w = false ->
  nth_error (inflight w) n = Some k ->
  let r := complete n ec bytes w in
  log_of r =
    [ev_continuation k ec bytes;
     ev_handler (handler (pointee (k_entry k))) ec bytes] /\
  timer (state_of r) = timer w /\
  entries (state_of r) = entries w /\
  inflight (state_of r) = remove_nth n (inflight w).
Proof.
  intros Hdead Hk; cbv zeta.
  rewrite complete_spec, Hk, Hdead, andb_false_r; cbn.
  now repeat split.
Qed.

Lemma completion_after_shutdown_calls_handler_witness :
  log_of (complete 0 success 100 (state_of (shutdown two_entries))) =
  [ev_continuation (mk_continuation (mk_ptr 0 (mk_entry 100 1000 11 21)) true)
                   success 100;
   ev_handler 21 success 100].
Proof.
  destruct (completion_after_shutdown_calls_handler
              (state_of (shutdown two_entries)) 0
              (mk_continuation (mk_ptr 0 (mk_entry 100 1000 11 21)) true)
              success 100 eq_refl eq_refl) as [Hlog _].
  exact Hlog.
Defined.

Lemma posts_call_no_handler (l : entries_type) :
  handler_calls_inline
    (map (fun ie => ev_post (cancellation (snd ie))) l) = 0%nat.
Proof. unfold handler_calls_inline; induction l; cbn; auto. Qed.

(** X7: whatever is called on the queue, in any state, at most one handler
    is called before the call returns, and [push], [shutdown] and the timer
    tick call none: what they complete, they post. *)
Theorem at_most_one_handler_inline (rtt : duration_type) (c : call)
  (w : world) :
  (handler_calls_inline (log_of (exec rtt c w)) <= 1)%nat /\
  (match c with
   | call_push _ _ _ _ | call_shutdown | io_tick =>
       handler_calls_inline (log_of (exec rtt c w)) = 0%nat
   | _ => True
   end).
Proof.
  destruct c as [index sz st h|index| |n ec bytes| |]; cbn [exec].
  - rewrite push_spec; cbv zeta.
    destruct (map_insert index _ (entries w)) as [es' []];
      [destruct (map_empty (entries w))|]; cbn; auto.
  - rewrite apply_ack_spec; cbv zeta.
    destruct (map_find index (entries w)) as [e|]; [|cbn; auto].
    destruct (is_begin index (entries w));
      [destruct (map_erase index (entries w)) as [|[j head] rest]|];
      cbn; auto.
  - rewrite shutdown_spec; unfold log_of; cbn [snd app].
    change (handler_calls_inline
              (ev_token_reset :: ev_timer_stop :: ev_detach :: ?l))
      with (handler_calls_inline l).
    rewrite posts_call_no_handler; auto.
  - rewrite complete_spec.
    destruct (nth_error (inflight w) n) as [k|]; [|cbn; auto].
    destruct (negb (k_guard k && shutdown_indicator w) || is_error ec);
      cbn; auto.
  - rewrite tick_spec.
    destruct (running (timer w)); [|cbn; auto].
    destruct (entries w) as [|[j head] rest]; cbn; auto.
  - rewrite poll_spec. destruct (ios w); cbn; auto.
Qed.

(** ** The retry period *)

Lemma Forall_map_insert (P : Index * entry_ptr -> Prop) (index : Index)
  (e : entry_ptr) (m : entries_type) :
  Forall P m -> P (index, e) -> Forall P (fst (map_insert index e m)).
Proof.
  rewrite !Forall_forall; intros Hm He ie Hin.
  destruct (map_insert_In _ _ _ _ Hin) as [->|Hold]; auto.
Qed.

Lemma initial_periods_init (rtt : duration_type) :
  initial_periods rtt transmit_queue.
Proof. constructor; cbn; (constructor || discriminate). Qed.

Lemma exec_initial_periods (rtt : duration_type) (c : call) (w : world) :
  initial_periods rtt w -> initial_periods rtt (state_of (exec rtt c w)).
Proof.
  intros [Hes Hfl Htm].
  destruct c as [index sz st h|index| |n ec bytes| |]; cbn [exec].
  - rewrite push_spec; cbv zeta.
    pose proof (Forall_map_insert _ index
                  (mk_ptr (heap_next w) (mk_entry sz rtt st h)) _ Hes eq_refl)
      as Hes'.
    destruct (map_insert index _ (entries w)) as [es' []]; cbn [fst] in Hes';
      [destruct (map_empty (entries w))|]; constructor; cbn; auto.
    apply Forall_app; split; auto.
  - rewrite apply_ack_spec; cbv zeta.
    destruct (map_find index (entries w)) as [e|]; [|now constructor].
    pose proof (Forall_entries_erase _ index _ Hes) as Hes'.
    destruct (is_begin index (entries w)).
    + destruct (map_erase index (entries w)) as [|[j head] rest] eqn:Herase;
        constructor; cbn; auto; try discriminate.
      apply Forall_app; split; auto.
      repeat constructor. now inversion Hes'.
    + constructor; cbn; auto.
  - rewrite shutdown_spec; constructor; cbn; auto; discriminate.
  - rewrite complete_spec.
    destruct (nth_error (inflight w) n) as [k|] eqn:Hk; [|now constructor].
    pose proof (Forall_remove_nth _ n _ Hfl) as Hfl'.
    apply nth_error_In in Hk; rewrite Forall_forall in Hfl.
    destruct (negb (k_guard k && shutdown_indicator w) || is_error ec);
      constructor; cbn; auto.
  - rewrite tick_spec.
    destruct (running (timer w)) eqn:Hrun;
      [|constructor; cbn; auto; rewrite Hrun; discriminate].
    destruct (entries w) as [|[j head] rest] eqn:Hes';
      [constructor; cbn; rewrite ?Hes'; auto|].
    cbv zeta; constructor; cbn; rewrite ?Hes'; auto.
    apply Forall_app; split; auto.
    repeat constructor. now inversion Hes.
  - rewrite poll_spec. destruct (ios w); now constructor.
Qed.

Lemma run_initial_periods (rtt : duration_type) (cs : list call) (w : world) :
  initial_periods rtt w -> initial_periods rtt (state_of (run rtt cs w)).
Proof.
  revert w; induction cs as [|c cs IH]; intros w Hw; [exact Hw|].
  rewrite run_cons_state; apply IH, exec_initial_periods, Hw.
Qed.

(** X8: the queue never changes a retry period.  Whatever has been called on
    a new queue, every entry in the table has the initial round trip time as
    its period, and a running timer has it as its period too. *)
Theorem retry_period_is_initial (rtt : duration_type) (cs : list call) :
  let w := state_of (run rtt cs transmit_queue) in
  (forall index e,
     map_find index (entries w) = Some e -> period (pointee e) = rtt) /\
  (running (timer w) = true -> timer_period (timer w) = rtt).
Proof.
  cbv zeta.
  destruct (run_initial_periods rtt cs _ (initial_periods_init rtt))
    as [Hes _ Htm].
  split; [|exact Htm].
  intros index e Hfound; apply map_find_In in Hfound.
  rewrite Forall_forall in Hes; exact (Hes _ Hfound).
Qed.

Lemma retry_period_is_initial_witness :
  let w := state_of (run 1000 [call_push 1 100 11 21;
                               io_complete 0 success 100] transmit_queue) in
  period (pointee (mk_ptr 0 (mk_entry 100 1000 11 21))) = 1000 /\
  timer_period (timer w) = 1000.
Proof.
  destruct (retry_period_is_initial 1000
              [call_push 1 100 11 21; io_complete 0 success 100])
    as [Hes Htm].
  cbv zeta; split.
  - apply (Hes 1); reflexivity.
  - apply Htm; reflexivity.
Defined.

(** X9: before the shutdown, a step of a queue that completes without error
    arms the timer and completes nothing: the timer is started with the
    initial round trip time, no handler is called and the table is left as
    it is, so the entry is retried at the next tick. *)
Theorem successful_completion_arms_timer (rtt : duration_type)
  (cs : list call) (n : nat) (k : continuation) (bytes : N) :
  let w := state_of (run rtt cs transmit_queue) in
  shutdown_indicator w = true ->
  nth_error (inflight w) n = Some k ->
  let r := complete n success bytes w in
  log_of r =
    [ev_continuation k success bytes; ev_timer_set_period rtt;
     ev_timer_start] /\
  timer (state_of r) = mk_timer true rtt /\
  entries (state_of r) = entries w /\
  shutdown_indicator (state_of r) = true.
Proof.
  cbv zeta; intros Halive Hk.
  destruct (reachable_consistent rtt cs) as [_ _ Hguard _ _ _ _].
  destruct (run_initial_periods rtt cs _ (initial_periods_init rtt))
    as [_ Hfl _].
  specialize (Hguard Halive).
  rewrite Forall_forall in Hguard, Hfl.
  pose proof (nth_error_In _ _ Hk) as Hin.
  rewrite complete_spec, Hk, Halive, (Hguard k Hin); cbn.
  rewrite (Hfl k Hin). now repeat split.
Qed.

Lemma successful_completion_arms_timer_witness :
  let w := state_of (run 1000 [call_push 1 100 11 21] transmit_queue) in
  timer (state_of (complete 0 success 100 w)) = mk_timer true 1000.
Proof.
  destruct (successful_completion_arms_timer 1000 [call_push 1 100 11 21] 0
              (mk_continuation (mk_ptr 0 (mk_entry 100 1000 11 21)) true)
              100 eq_refl eq_refl) as (_ & Htm & _).
  exact Htm.
Defined.

(** ** Accounting for the handlers *)

Lemma handler_calls_app (h : iteration_handler) (l1 l2 : list event) :
  handler_calls h (l1 ++ l2) = (handler_calls h l1 + handler_calls h l2)%nat.
Proof. unfold handler_calls; now rewrite filter_app, length_app. Qed.

Lemma count_map_insert (g : entry_ptr -> bool) (index : Index)
  (e : entry_ptr) (m : entries_type) :
  snd (map_insert index e m) = true ->
  length (filter (fun ie => g (snd ie)) (fst (map_insert index e m))) =
  (length (filter (fun ie => g (snd ie)) m) + (if g e then 1 else 0))%nat.
Proof.
  induction m as [|[j e0] m IH]; cbn.
  - intros _; destruct (g e); reflexivity.
  - destruct (index <? j); cbn.
    + intros _; destruct (g e), (g e0); cbn; lia.
    + destruct (index =? j); cbn; [discriminate|].
      destruct (map_insert index e m) as [m'' b]; cbn in *.
      intros Hb; specialize (IH Hb).
      destruct (g e0); cbn; lia.
Qed.

Lemma count_map_erase (g : entry_ptr -> bool) (index : Index)
  (e : entry_ptr) (m : entries_type) :
  map_find index m = Some e ->
  (length (filter (fun ie => g (snd ie)) (map_erase index m)) +
   (if g e then 1 else 0))%nat =
  length (filter (fun ie => g (snd ie)) m).
Proof.
  induction m as [|[j e0] m IH]; cbn; [discriminate|].
  destruct (index =? j).
  - intros [= ->]; destruct (g e); cbn; lia.
  - intros Hf; specialize (IH Hf); cbn.
    destruct (g e0); cbn; lia.
Qed.

Lemma count_cancellations (h : iteration_handler) (m : entries_type) :
  length (filter (fun c => cl_handler c =? h)
                 (map (fun ie => cancellation (snd ie)) m)) =
  length (filter (fun ie => handler (pointee (snd ie)) =? h) m).
Proof.
  induction m as [|[j e] m IH]; cbn; [reflexivity|].
  destruct (handler (pointee e) =? h); cbn; now rewrite IH.
Qed.

Lemma posts_are_no_calls (h : iteration_handler) (m : entries_type) :
  handler_calls h (map (fun ie => ev_post (cancellation (snd ie))) m) = 0%nat.
Proof. unfold handler_calls; induction m; cbn; auto. Qed.

(** What one call does to the account of the handler [h]. *)
Lemma exec_accounting (rtt : duration_type) (h : iteration_handler)
  (c : call) (w : world) :
  (handler_calls h (log_of (exec rtt c w)) +
   posted h (state_of (exec rtt c w)) +
   waiting h (state_of (exec rtt c w)))%nat =
  (posted h w + waiting h w + pushes h [c] + direct h c w)%nat.
Proof.
  unfold posted, waiting, pushes.
  destruct c as [index sz st h0|index| |n ec bytes| |]; cbn [exec].
  - rewrite push_spec; cbv zeta.
    pose proof (count_map_insert (fun e => handler (pointee e) =? h) index
                  (mk_ptr (heap_next w) (mk_entry sz rtt st h0)) (entries w))
      as Hcount.
    destruct (map_insert index _ (entries w)) as [es' []]; cbn in Hcount.
    + specialize (Hcount eq_refl).
      destruct (map_empty (entries w)); unfold handler_calls; cbn;
        rewrite Hcount; destruct (h0 =? h); cbn; lia.
    + unfold handler_calls; cbn.
      rewrite filter_app, length_app; cbn.
      destruct (h0 =? h); cbn; lia.
  - rewrite apply_ack_spec; cbv zeta.
    destruct (map_find index (entries w)) as [e|] eqn:Hfound;
      [|unfold handler_calls; cbn; lia].
    pose proof (count_map_erase (fun e => handler (pointee e) =? h) index e
                  (entries w) Hfound) as Hcount; cbn in Hcount.
    destruct (is_begin index (entries w));
      [destruct (map_erase index (entries w)) as [|[j head] rest]|];
      unfold handler_calls; cbn in *;
      destruct (handler (pointee e) =? h); cbn; lia.
  - rewrite shutdown_spec; unfold log_of, state_of; cbn [fst snd].
    rewrite handler_calls_app, posts_are_no_calls; cbn [ios entries].
    rewrite filter_app, length_app, count_cancellations.
    unfold handler_calls; cbn; lia.
  - rewrite complete_spec; unfold direct, calls_handler.
    destruct (nth_error (inflight w) n) as [k|];
      [|unfold handler_calls; cbn; lia].
    destruct (negb (k_guard k && shutdown_indicator w) || is_error ec);
      unfold handler_calls; cbn;
      [destruct (handler (pointee (k_entry k)) =? h); cbn; lia|lia].
  - rewrite tick_spec.
    destruct (running (timer w)); [|unfold handler_calls; cbn; lia].
    destruct (entries w) as [|[j head] rest] eqn:Hes;
      unfold handler_calls; cbn; rewrite ?Hes; cbn; lia.
  - rewrite poll_spec.
    destruct (ios w) as [|c rest] eqn:Hios; unfold handler_calls; cbn;
      rewrite ?Hios; cbn; [lia|].
    destruct (cl_handler c =? h); cbn; lia.
Qed.

Lemma run_accounting (rtt : duration_type) (h : iteration_handler)
  (cs : list call) (w : world) :
  (handler_calls h (log_of (run rtt cs w)) +
   posted h (state_of (run rtt cs w)) +
   waiting h (state_of (run rtt cs w)))%nat =
  (posted h w + waiting h w + pushes h cs + direct_run rtt h cs w)%nat.
Proof.
  revert w; induction cs as [|c cs IH]; intros w.
  - unfold handler_calls, pushes; cbn; lia.
  - rewrite run_cons_log, run_cons_state, handler_calls_app.
    specialize (IH (state_of (exec rtt c w))).
    pose proof (exec_accounting rtt h c w) as Hstep.
    assert (Hpush : pushes h (c :: cs) = (pushes h [c] + pushes h cs)%nat).
    { unfold pushes; cbn; destruct (is_push_of h c); reflexivity. }
    rewrite Hpush; cbn [direct_run]; lia.
Qed.

Lemma exec_token (rtt : duration_type) (c : call) (w : world) :
  shutdown_indicator (state_of (exec rtt c w)) =
  match c with
  | call_shutdown => false
  | _ => shutdown_indicator w
  end.
Proof.
  destruct c as [index sz st h|index| |n ec bytes| |]; cbn [exec].
  - rewrite push_spec; cbv zeta.
    destruct (map_insert index _ (entries w)) as [es' []];
      [destruct (map_empty (entries w))|]; reflexivity.
  - rewrite apply_ack_spec; cbv zeta.
    destruct (map_find index (entries w)) as [e|]; [|reflexivity].
    destruct (is_begin index (entries w)); [|reflexivity].
    now destruct (map_erase index (entries w)) as [|[j head] rest].
  - now rewrite shutdown_spec.
  - rewrite complete_spec.
    destruct (nth_error (inflight w) n) as [k|]; [|reflexivity].
    now destruct (negb (k_guard k && shutdown_indicator w) || is_error ec).
  - rewrite tick_spec.
    destruct (running (timer w)); [|reflexivity].
    now destruct (entries w) as [|[j head] rest].
  - rewrite poll_spec. now destruct (ios w).
Qed.

Lemma orderly_no_direct (rtt : duration_type) (h : iteration_handler)
  (cs : list call) (w : world) (log : list event) :
  consistent w log ->
  orderly (shutdown_indicator w) cs = true ->
  direct_run rtt h cs w = 0%nat.
Proof.
  revert w log; induction cs as [|c cs IH]; intros w log Hcons Hord;
    [reflexivity|].
  pose proof (exec_consistent rtt c w log Hcons) as Hcons'.
  pose proof (exec_token rtt c w) as Htoken.
  cbn [direct_run].
  destruct c as [index sz st h0|index| |n ec bytes| |]; cbn [orderly] in Hord;
    cbn [direct]; try (rewrite (IH _ _ Hcons'); [reflexivity|];
                       rewrite Htoken; exact Hord).
  apply andb_true_iff in Hord; destruct Hord as [Hord Hrest].
  apply andb_true_iff in Hord; destruct Hord as [Halive Hok].
  rewrite (IH _ _ Hcons') by (rewrite Htoken; exact Hrest).
  destruct (nth_error (inflight w) n) as [k|] eqn:Hk; [|reflexivity].
  apply nth_error_In in Hk.
  pose proof (cons_guard _ _ Hcons Halive) as Hguard.
  rewrite Forall_forall in Hguard.
  unfold calls_handler; rewrite (Hguard k Hk), Halive.
  apply negb_true_iff in Hok; rewrite Hok; reflexivity.
Qed.

(** X10: no push is ever dropped.  In every run of a new queue and for
    every handler, the calls of the handler, the posted closures that will
    call it and the entries in the table that hold it add up to the pushes
    that brought it plus the calls made from step continuations; so they
    are never fewer than the pushes. *)
Theorem every_push_is_accounted_for (rtt : duration_type)
  (h : iteration_handler) (cs : list call) :
  let r := run rtt cs transmit_queue in
  (handler_calls h (log_of r) + posted h (state_of r) +
   waiting h (state_of r))%nat =
  (pushes h cs + direct_run rtt h cs transmit_queue)%nat /\
  (pushes h cs <=
   handler_calls h (log_of r) + posted h (state_of r) +
   waiting h (state_of r))%nat.
Proof.
  cbv zeta; pose proof (run_accounting rtt h cs transmit_queue) as Hacc.
  unfold posted at 2, waiting at 2 in Hacc; cbn in Hacc.
  split; lia.
Qed.

(** X11: completion is exactly once per push when steps behave.  In a run of
    a new queue in which every step completes without error and before the
    shutdown, the calls of a handler, the posted closures that will call it
    and the entries that hold it add up to exactly the pushes that brought
    it; once the table holds none of them and nothing is posted for it, the
    handler has been called once per push. *)
Theorem completion_is_once_per_push (rtt : duration_type)
  (h : iteration_handler) (cs : list call) :
  orderly true cs = true ->
  let r := run rtt cs transmit_queue in
  (handler_calls h (log_of r) + posted h (state_of r) +
   waiting h (state_of r))%nat = pushes h cs /\
  (posted h (state_of r) = 0%nat -> waiting h (state_of r) = 0%nat ->
   handler_calls h (log_of r) = pushes h cs).
Proof.
  intros Hord; cbv zeta.
  pose proof (run_accounting rtt h cs transmit_queue) as Hacc.
  rewrite (orderly_no_direct rtt h cs transmit_queue [] consistent_init Hord)
    in Hacc.
  unfold posted at 2, waiting at 2 in Hacc; cbn in Hacc.
  split; [lia|intros; lia].
Qed.

Lemma completion_is_once_per_push_witness :
  handler_calls 21
    (log_of (run 1000 [call_push 1 100 11 21; call_push 2 200 12 22;
                       io_complete 0 success 100; call_apply_ack 1;
                       call_shutdown; io_poll] transmit_queue)) = 1%nat /\
  handler_calls 22
    (log_of (run 1000 [call_push 1 100 11 21; call_push 2 200 12 22;
                       io_complete 0 success 100; call_apply_ack 1;
                       call_shutdown; io_poll] transmit_queue)) = 1%nat.
Proof.
  split.
  - apply (completion_is_once_per_push 1000 21
             [call_push 1 100 11 21; call_push 2 200 12 22;
              io_complete 0 success 100; call_apply_ack 1;
              call_shutdown; io_poll] eq_refl); reflexivity.
  - apply (completion_is_once_per_push 1000 22
             [call_push 1 100 11 21; call_push 2 200 12 22;
              io_complete 0 success 100; call_apply_ack 1;
              call_shutdown; io_poll] eq_refl); reflexivity.
Defined.

(** ** When a step is called *)

(** X12: a step is called on three occasions only: a [push] into an empty
    table, an [apply_ack] of the head that leaves other entries behind, and
    a tick of the running timer over a table that is not empty.  No other
    call starts a step, so with a stopped timer an entry that is head and
    not being attempted stays so until it is acknowledged. *)
Theorem step_is_called_on_three_occasions (rtt : duration_type) (c : call)
  (w : world) (st : iteration_step) (k : continuation) :
  In (ev_step st k) (log_of (exec rtt c w)) ->
  match c with
  | call_push _ _ _ _ => entries w = []
  | call_apply_ack index =>
      is_begin index (entries w) = true /\ map_erase index (entries w) <> []
  | io_tick => running (timer w) = true /\ entries w <> []
  | _ => False
  end.
Proof.
  destruct c as [index sz st0 h|index| |n ec bytes| |]; cbn [exec].
  - rewrite push_spec; cbv zeta.
    destruct (map_insert index _ (entries w)) as [es' []];
      [destruct (entries w) as [|ie rest]|]; cbn; auto;
      intros [[=]|[]].
  - rewrite apply_ack_spec; cbv zeta.
    destruct (map_find index (entries w)) as [e|]; [|intros []].
    destruct (is_begin index (entries w)).
    + destruct (map_erase index (entries w)) as [|[j head] rest]; cbn.
      * intros [[=]|[[=]|[[=]|[]]]].
      * intros _; split; [reflexivity|discriminate].
    + cbn; intros [[=]|[[=]|[]]].
  - rewrite shutdown_spec; cbn.
    intros [[=]|[[=]|[[=]|Hin]]].
    apply in_map_iff in Hin; destruct Hin as (? & [=] & _).
  - rewrite complete_spec.
    destruct (nth_error (inflight w) n) as [k0|]; [|intros []].
    destruct (negb (k_guard k0 && shutdown_indicator w) || is_error ec); cbn.
    + intros [[=]|[[=]|[]]].
    + intros [[=]|[[=]|[[=]|[]]]].
  - rewrite tick_spec.
    destruct (running (timer w)); [|intros []].
    destruct (entries w) as [|[j head] rest]; [intros []|].
    intros _; split; [reflexivity|discriminate].
  - rewrite poll_spec.
    destruct (ios w) as [|c rest]; cbn; [intros []|intros [[=]|[]]].
Qed.

Lemma step_is_called_on_three_occasions_witness :
  is_begin 1 (entries two_entries) = true /\
  map_erase 1 (entries two_entries) <> [].
Proof.
  apply (step_is_called_on_three_occasions 1000 (call_apply_ack 1)
           two_entries 12
           (mk_continuation (mk_ptr 1 (mk_entry 200 1000 12 22)) true)).
  cbn; auto.
Defined.

(** X13: a [push] of an index below every index of a table that is not
    empty makes the new entry the head without starting it: no step is
    called, and the timer and the continuations in flight, which belong to
    the former head, are left as they are. *)
Theorem push_below_head_is_not_started (rtt : duration_type) (index : Index)
  (sz : N) (st : iteration_step) (h : iteration_handler) (w : world)
  (j : Index) (e0 : entry_ptr) :
  ascending (entries w) ->
  hd_error (entries w) = Some (j, e0) ->
  index < j ->
  let entry := mk_ptr (heap_next w) (mk_entry sz rtt st h) in
  let r := push rtt index sz st h w in
  min_entry (entries (state_of r)) = Some (index, entry) /\
  entries (state_of r) = (index, entry) :: entries w /\
  log_of r = [ev_insert index entry] /\
  timer (state_of r) = timer w /\
  inflight (state_of r) = inflight w.
Proof.
  intros Hasc Hhd Hlt entry r.
  pose proof (map_insert_ascending index entry _ Hasc) as Hasc'.
  apply N.ltb_lt in Hlt.
  subst r; rewrite push_spec; cbv zeta; fold entry.
  destruct (entries w) as [|[j' e'] rest]; [discriminate|].
  injection Hhd as -> ->.
  cbn [map_insert] in *; rewrite Hlt in *; cbn [fst map_empty] in *.
  unfold state_of, log_of; cbn [fst snd entries timer inflight].
  split; [now rewrite (min_entry_ascending _ Hasc')|now repeat split].
Qed.

Lemma push_below_head_is_not_started_witness :
  let w := state_of (run 1000 [call_push 2 200 12 22;
                               io_complete 0 success 200] transmit_queue) in
  let r := push 1000 1 100 11 21 w in
  min_entry (entries (state_of r))
  = Some (1, mk_ptr 1 (mk_entry 100 1000 11 21)) /\
  log_of r = [ev_insert 1 (mk_ptr 1 (mk_entry 100 1000 11 21))].
Proof.
  assert (Hasc : ascending
                   (entries (state_of (run 1000 [call_push 2 200 12 22;
                                                 io_complete 0 success 200]
                                           transmit_queue))))
    by (unfold ascending; cbn; repeat constructor).
  destruct (push_below_head_is_not_started 1000 1 100 11 21 _ 2
              (mk_ptr 0 (mk_entry 200 1000 12 22)) Hasc eq_refl eq_refl)
    as (Hmin & _ & Hlog & _).
  cbv zeta; split; [exact Hmin|exact Hlog].
Defined.
